(** * MorrisII.cpp: a shallow embedding of the propagation prototype

    The program keeps three globals (the contact vector, the topology map and
    the infected set), reads three line-oriented files and writes a handful of
    others.  It is embedded here as state transformers over a record holding
    the globals, the file system and the chronological list of stream
    operations; the one C++ exception the code can meet ([std::out_of_range]
    from [substr]) is the error of the monad. *)

From Stdlib Require Import ZArith Ascii.
From stdpp Require Import gmap strings list fin_maps sorting.

#[local] Set Warnings "-clear-no-such-hyp".

Local Open Scope Z_scope.

(** ** [std::string]: [size_t] arithmetic, [find], [substr] *)

Module CxxString.

(** [size_t] is an unsigned 64-bit integer on the LP64 targets. *)
Definition size_t_bits : Z := 64.
Definition size_t_wrap (z : Z) : Z := z mod 2 ^ size_t_bits.

(** [static const size_type npos = -1;] *)
Definition npos : Z := size_t_wrap (-1).

Definition size (s : string) : Z := Z.of_nat (String.length s).

(** Every [std::string] satisfies [size() <= max_size() < npos]. *)
Definition representable (s : string) : Prop := size s < npos.

Fixpoint starts_with (pat s : string) : bool :=
  match pat, s with
  | EmptyString, _ => true
  | String _ _, EmptyString => false
  | String a pat', String b s' => if decide (a = b) then starts_with pat' s' else false
  end.

(** [s.find(pat)], scanning from index [i] of the original string: the
    first position at which [pat] occurs, [npos] when there is none. *)
Fixpoint find_at (pat s : string) (i : Z) : Z :=
  if starts_with pat s then i
  else match s with
       | EmptyString => npos
       | String _ s' => find_at pat s' (i + 1)
       end.

Definition find (s pat : string) : Z := find_at pat s 0.

Fixpoint take (n : nat) (s : string) : string :=
  match n, s with
  | S n', String c s' => String c (take n' s')
  | _, _ => EmptyString
  end.

Fixpoint drop (n : nat) (s : string) : string :=
  match n, s with
  | S n', String _ s' => drop n' s'
  | _, _ => s
  end.

(** [s.substr(pos, n)]: throws [std::out_of_range] when [pos > size()],
    otherwise the [min(n, size() - pos)] characters from [pos]. *)
Definition substr (s : string) (pos n : Z) : option string :=
  if size s <? pos then None
  else Some (take (Z.to_nat (Z.min n (size s - pos))) (drop (Z.to_nat pos) s)).

(** The offset of the first occurrence, as a number: what [find] returns
    before it is cast to [size_t]. *)
Fixpoint first_occ (pat s : string) : option nat :=
  if starts_with pat s then Some 0%nat
  else match s with
       | EmptyString => None
       | String _ s' => S <$> first_occ pat s'
       end.

Definition contains (s pat : string) : Prop :=
  ∃ pre post, s = pre +:+ pat +:+ post.

Definition nul : ascii := "000"%char.

(** [s.c_str()] read as a C string, which is what a file stream constructed
    from a [std::string] opens: the bytes before the first NUL. *)
Fixpoint c_str (s : string) : string :=
  match s with
  | EmptyString => EmptyString
  | String c s' => if decide (c = nul) then EmptyString else String c (c_str s')
  end.

(** [suf] is a suffix of [s]. *)
Fixpoint ends_with (suf s : string) : bool :=
  if decide (s = suf) then true
  else match s with
       | EmptyString => false
       | String _ s' => ends_with suf s'
       end.

End CxxString.

(** ** Streams *)

Module Stream.

Definition newline : ascii := "010"%char.
Definition endl : string := String newline EmptyString.

(** The lines successive [std::getline] calls deliver from a buffer: a line
    ends at a newline or at the end of the data, and the call that meets the
    end of the data with nothing extracted fails and stops the loop. *)
Fixpoint read_lines (s : string) : list string :=
  match s with
  | EmptyString => []
  | String c rest =>
      if decide (c = newline) then EmptyString :: read_lines rest
      else match read_lines rest with
           | [] => [String c EmptyString]
           | l :: ls => String c l :: ls
           end
  end.

(** What a [while (std::getline(stream, line))] loop sees: nothing when the
    stream failed to open. *)
Definition getlines (stream : option string) : list string :=
  match stream with
  | None => []
  | Some buf => read_lines buf
  end.

Definition unlines (ls : list string) : string :=
  foldr (λ l acc, l +:+ endl +:+ acc) EmptyString ls.

End Stream.

Import CxxString Stream.

(** ** Program state and the monad of the embedding *)

Inductive open_mode := ModeIn | ModeTrunc | ModeApp.

(** A stream operation the program performed: a stream constructed on the
    file [path] (and whether it opened), or [data] inserted into the stream
    on the file [path]. *)
Inductive event :=
  | EvOpen (path : string) (mode : open_mode) (ok : bool)
  | EvWrite (path : string) (data : string).

Definition event_path (e : event) : string :=
  match e with
  | EvOpen path _ _ => path
  | EvWrite path _ => path
  end.

Global Instance open_mode_eq_dec : EqDecision open_mode.
Proof. solve_decision. Defined.
Global Instance event_eq_dec : EqDecision event.
Proof. solve_decision. Defined.

(** The globals of the program, and its environment: the files by name, the
    names on which no output stream opens (the environment decides them: a
    name that is empty or names a directory is among them), and the stream
    operations performed so far. *)
Record state := State {
  contacts : list string;
  connected_systems : gmap string (gset string);
  infected_systems : gset string;
  files : gmap string string;
  denied : gset string;
  trace : list event
}.

Inductive exn := out_of_range.

Inductive result (A : Type) :=
  | Ok (a : A)
  | Throw (e : exn).
Arguments Ok {A} a.
Arguments Throw {A} e.

Definition M (A : Type) : Type := state → result (A * state).

Definition ret {A} (a : A) : M A := λ st, Ok (a, st).

Definition bind {A B} (m : M A) (k : A → M B) : M B :=
  λ st, match m st with
        | Ok (a, st') => k a st'
        | Throw e => Throw e
        end.

Definition throw {A} (e : exn) : M A := λ _, Throw e.

Declare Scope prog_scope.
Delimit Scope prog_scope with prog.
Notation "'let*' x ':=' m 'in' k" := (bind m (λ x, k))
  (at level 10, x pattern, m at level 100, k at level 200) : prog_scope.
Notation "m ;; k" := (bind m (λ _, k))
  (at level 100, k at level 200, right associativity) : prog_scope.

Local Open Scope prog_scope.

Definition gets {A} (f : state → A) : M A := λ st, Ok (f st, st).
Definition modify (f : state → state) : M unit := λ st, Ok (tt, f st).

(** A range-based [for] or a [while (getline ...)] loop over [l]. *)
Fixpoint for_each {A} (l : list A) (body : A → M unit) : M unit :=
  match l with
  | [] => ret tt
  | x :: l' => body x ;; for_each l' body
  end.

Definition log_event (e : event) (st : state) : state :=
  State (contacts st) (connected_systems st) (infected_systems st)
        (files st) (denied st) (trace st ++ [e]).

Definition set_files (f : gmap string string) (st : state) : state :=
  State (contacts st) (connected_systems st) (infected_systems st)
        f (denied st) (trace st).

(** [std::ifstream s(path)], only ever called on a literal without a NUL:
    the buffer when the file exists. *)
Definition open_in (path : string) : M (option string) :=
  λ st, let r := files st !! path in
        Ok (r, log_event (EvOpen path ModeIn (bool_decide (is_Some r))) st).

(** An output stream: the file it is on and whether it opened. *)
Record ofstream := Ofstream { os_path : string; os_good : bool }.

(** Opening the file named [file] for writing: fails on a name that cannot
    be opened; otherwise the file is created when missing, and emptied unless
    the mode is append. *)
Definition open_file (file : string) (mode : open_mode) : M ofstream :=
  λ st,
    if decide (file ∈ denied st) then
      Ok (Ofstream file false, log_event (EvOpen file mode false) st)
    else
      let old := default EmptyString (files st !! file) in
      let content := match mode with ModeApp => old | _ => EmptyString end in
      Ok (Ofstream file true,
          log_event (EvOpen file mode true) (set_files (<[file := content]> (files st)) st)).

(** [std::ofstream s(path)] and [std::ofstream s(path, std::ios::app)] for a
    [std::string] or a literal [path]: the stream opens [path.c_str()], so a
    name is cut at its first NUL. *)
Definition open_out (path : string) (mode : open_mode) : M ofstream :=
  open_file (c_str path) mode.

(** [s << data]: appended to the file when the stream is good, dropped
    otherwise. *)
Definition put (s : ofstream) (data : string) : M unit :=
  λ st,
    let st' :=
      if os_good s then
        set_files (<[os_path s := default EmptyString (files st !! os_path s) +:+ data]> (files st)) st
      else st in
    Ok (tt, log_event (EvWrite (os_path s) data) st').

Definition lift_substr (r : option string) : M string :=
  match r with
  | Some s => ret s
  | None => throw out_of_range
  end.

(** ** The program *)

Module MorrisII.

Definition marker : string := "adversarial_keyword".

Definition IsAdversarialPrompt (email : string) : bool :=
  negb (find email marker =? npos).

Definition StealData : M unit :=
  let* data_stream := open_in "data.txt" in
  let* stolen_data_stream := open_out "stolen_data.txt" ModeTrunc in
  if bool_decide (is_Some data_stream) && os_good stolen_data_stream then
    for_each (getlines data_stream) (λ data, put stolen_data_stream (data +:+ endl))
  else ret tt.

Definition spam_email_content : string := "This is a spam email.".

Definition SendSpamEmails : M unit :=
  let* cs := gets contacts in
  for_each cs (λ contact,
    let* spam_email_stream := open_out (contact +:+ "_spam_email.txt") ModeTrunc in
    if os_good spam_email_stream then put spam_email_stream spam_email_content
    else ret tt).

Definition ReplicatePrompt (email : string) : M unit :=
  let replicated_email := email +:+ " replicated_prompt" in
  let* cs := gets contacts in
  for_each cs (λ contact,
    let* replicated_email_stream := open_out (contact +:+ "_replicated_email.txt") ModeTrunc in
    if os_good replicated_email_stream then put replicated_email_stream replicated_email
    else ret tt).

Definition ProcessAdversarialPrompt (email : string) : M unit :=
  StealData ;;
  SendSpamEmails ;;
  ReplicatePrompt email.

(** [connected_systems[host].insert(connected_system)]: [operator[]]
    creates the empty set for a new key, then the element is inserted. *)
Definition subscript (host : string) (m : gmap string (gset string))
  : gmap string (gset string) :=
  match m !! host with
  | Some _ => m
  | None => <[host := ∅]> m
  end.

Definition insert_neighbor (host connected_system : string)
    (m : gmap string (gset string)) : gmap string (gset string) :=
  let m' := subscript host m in
  <[host := {[connected_system]} ∪ default ∅ (m' !! host)]> m'.

Definition set_connected_systems (m : gmap string (gset string)) (st : state) : state :=
  State (contacts st) m (infected_systems st) (files st) (denied st) (trace st).

Definition push_contact (contact : string) (st : state) : state :=
  State (contacts st ++ [contact]) (connected_systems st) (infected_systems st)
        (files st) (denied st) (trace st).

(** The two fields the loop body of [IdentifyConnectedSystems] cuts out
    of a line; [delimiter_pos + 1] is computed in [size_t]. *)
Definition split_line (line : string) : M (string * string) :=
  let delimiter_pos := find line " " in
  let* host := lift_substr (substr line 0 delimiter_pos) in
  let* connected_system := lift_substr (substr line (size_t_wrap (delimiter_pos + 1)) npos) in
  ret (host, connected_system).

Definition IdentifyConnectedSystems : M unit :=
  let* systems_stream := open_in "connected_systems.txt" in
  for_each (getlines systems_stream) (λ line,
    let* (host, connected_system) := split_line line in
    modify (λ st, set_connected_systems
                    (insert_neighbor host connected_system (connected_systems st)) st)).

Definition LogTransmission (host system : string) : M unit :=
  let* log_stream := open_out "transmission_log.txt" ModeApp in
  put log_stream (host +:+ " -> " +:+ system +:+ endl).

Definition LogInfection (host system : string) : M unit :=
  let* infection_log_stream := open_out "infection_log.txt" ModeApp in
  put infection_log_stream (host +:+ " infected " +:+ system +:+ endl).

Definition SendPrompt (host system : string) : M unit :=
  LogTransmission host system ;;
  LogInfection host system.

Definition Initialize : M unit :=
  let* contacts_stream := open_in "contacts.txt" in
  for_each (getlines contacts_stream) (λ contact, modify (push_contact contact)) ;;
  IdentifyConnectedSystems.

(** [std::map] and [std::set] iterate in increasing key order, and
    [std::string] compares bytewise. *)
Definition in_order (s : gset string) : list string :=
  merge_sort String.le (elements s).

Definition edges_in_order (m : gmap string (gset string)) : list (string * string) :=
  host ← in_order (dom m) ;
  system ← in_order (default ∅ (m !! host)) ;
  [(host, system)].

(** The first loop of [Run]. *)
Definition Scan : M unit :=
  let* cs := gets contacts in
  for_each cs (λ email,
    if IsAdversarialPrompt email then ProcessAdversarialPrompt email else ret tt).

(** The second loop of [Run]. *)
Definition Propagate : M unit :=
  let* m := gets connected_systems in
  for_each (in_order (dom m)) (λ host,
    for_each (in_order (default ∅ (m !! host))) (λ system, SendPrompt host system)).

Definition Run : M unit :=
  Initialize ;;
  Scan ;;
  Propagate.

Definition main : M Z :=
  Run ;;
  ret 0.

(** The process starts with empty globals and nothing done yet. *)
Definition initial_state (fs : gmap string string) (locked : gset string) : state :=
  State [] ∅ ∅ fs locked [].

End MorrisII.

Import MorrisII.

(** ** Vocabulary of the specifications *)

(** Total correctness of a computation: from every state it returns, and the
    start state, the value and the end state are related by [R]. *)
Definition steps {A} (m : M A) (R : state → A → state → Prop) : Prop :=
  ∀ st, ∃ a st', m st = Ok (a, st') ∧ R st a st'.

Definition same_globals (st st' : state) : Prop :=
  contacts st' = contacts st ∧
  connected_systems st' = connected_systems st ∧
  infected_systems st' = infected_systems st ∧
  denied st' = denied st.

(** The files outside [P] are as they were. *)
Definition files_agree_off (P : string → Prop) (st st' : state) : Prop :=
  ∀ path, ¬ P path → files st' !! path = files st !! path.

Definition occurrences (e : event) (tr : list event) : nat :=
  length (filter (λ e', e' = e) tr).

Definition is_ledger (path : string) : Prop :=
  path = "transmission_log.txt" ∨ path = "infection_log.txt".

Definition transmission_line (host system : string) : string :=
  host +:+ " -> " +:+ system +:+ endl.

Definition infection_line (host system : string) : string :=
  host +:+ " infected " +:+ system +:+ endl.

(** What [SendPrompt host system] does to the streams. *)
Definition prompt_events (locked : gset string) (host system : string) : list event :=
  [ EvOpen "transmission_log.txt" ModeApp (bool_decide ("transmission_log.txt" ∉ locked));
    EvWrite "transmission_log.txt" (transmission_line host system);
    EvOpen "infection_log.txt" ModeApp (bool_decide ("infection_log.txt" ∉ locked));
    EvWrite "infection_log.txt" (infection_line host system) ].

(** The fields [split_line] returns, with the exception branch of [substr]
    left out. *)
Definition fields (line : string) : string * string :=
  let delimiter_pos := find line " " in
  let pos := size_t_wrap (delimiter_pos + 1) in
  (take (Z.to_nat (Z.min delimiter_pos (size line - 0))) (drop (Z.to_nat 0) line),
   take (Z.to_nat (Z.min npos (size line - pos))) (drop (Z.to_nat pos) line)).

(** The topology after the lines [ls] have been read into [m]. *)
Definition build_from (m : gmap string (gset string)) (ls : list string)
  : gmap string (gset string) :=
  foldl (λ acc line, insert_neighbor (fields line).1 (fields line).2 acc) m ls.

Definition neighbors_of (m : gmap string (gset string)) (host : string) : gset string :=
  default ∅ (m !! host).

Definition spam_path (contact : string) : string := contact +:+ "_spam_email.txt".
Definition replicated_path (contact : string) : string := contact +:+ "_replicated_email.txt".

Definition topology_line (e : string * string) : string := e.1 +:+ " " +:+ e.2.

(** Every key of the map has at least one neighbor. *)
Definition sets_nonempty (m : gmap string (gset string)) : Prop :=
  ∀ host s, m !! host = Some s → s ≠ ∅.

Definition keys_no_space (m : gmap string (gset string)) : Prop :=
  ∀ host, is_Some (m !! host) → ¬ contains host " ".

(** The files the two sinks of a contact are: their names as the streams
    open them. *)
Definition spam_file (contact : string) : string := c_str (spam_path contact).
Definition replicated_file (contact : string) : string := c_str (replicated_path contact).

(** [path] is a sink of one of the contacts [cs]. *)
Definition is_contact_sink (cs : list string) (path : string) : Prop :=
  ∃ k, k ∈ cs ∧ (path = spam_file k ∨ path = replicated_file k).

Definition is_payload_sink (cs : list string) (path : string) : Prop :=
  path = "stolen_data.txt" ∨ is_contact_sink cs path.

(** A name of the shape of a sink name: some string followed by one of the
    two suffixes. *)
Definition is_email_name (path : string) : Prop :=
  (∃ k, path = spam_path k) ∨ (∃ k, path = replicated_path k).

Definition no_nul (s : string) : Prop := ¬ contains s (String nul EmptyString).

(** What the payload inserts into a stream: a line for the captured-data
    file, the placeholder, or a replicated message. *)
Definition payload_write (e : event) : Prop :=
  match e with
  | EvOpen _ _ _ => True
  | EvWrite path data =>
      path = "stolen_data.txt" ∨ data = spam_email_content ∨
      ∃ email, data = email +:+ " replicated_prompt"
  end.

(** No file is removed. *)
Definition files_kept (st st' : state) : Prop :=
  ∀ path, is_Some (files st !! path) → is_Some (files st' !! path).

(** An event that is the opening of an input stream, or concerns a path in
    [P]. *)
Definition event_within (P : string → Prop) (e : event) : Prop :=
  match e with
  | EvOpen _ ModeIn _ => True
  | _ => P (event_path e)
  end.

(** A step that leaves the globals alone and writes, if at all, to files in
    [P]. *)
Definition confined (P : string → Prop) (st st' : state) : Prop :=
  same_globals st st' ∧
  files_agree_off P st st' ∧
  ∃ evs, trace st' = trace st ++ evs ∧ Forall (event_within P) evs.

(** The stream operations of the second loop of [Run] on the map [m]. *)
Definition propagate_events (locked : gset string) (m : gmap string (gset string))
  : list event :=
  edges_in_order m ≫= λ e, prompt_events locked e.1 e.2.

(** The loop body shared by [SendSpamEmails] and [ReplicatePrompt], on the
    file the stream opens: open [file] afresh and, when that worked, write
    [content]. *)
Definition write_file (file content : string) : M unit :=
  (let* s := open_file file ModeTrunc in
   if os_good s then put s content else ret tt)%prog.

Definition is_trigger (email : string) : Prop := IsAdversarialPrompt email = true.

(** What one run of the payload leaves in the sinks of the contacts that
    could be opened: the replicated message in every replication sink, and
    the placeholder in every spam sink that is not also a replication sink. *)
Definition payload_delivered (email : string) (st st' : state) : Prop :=
  ∀ k, k ∈ contacts st →
    (replicated_file k ∉ denied st →
     files st' !! replicated_file k = Some (email +:+ " replicated_prompt")) ∧
    (spam_file k ∉ denied st →
     (∀ k', k' ∈ contacts st → replicated_file k' ≠ spam_file k) →
     files st' !! spam_file k = Some spam_email_content).



(** A source is missing or holds nothing. *)
Definition source_empty (fs : gmap string string) (path : string) : Prop :=
  fs !! path = None ∨ fs !! path = Some "".

(** The file [old] after [lines] were appended to it one at a time; the
    first line creates a missing file. *)
Definition appended (old : option string) (lines : list string) : option string :=
  foldl (λ acc line, Some (default "" acc +:+ line)) old lines.

(** The lines the second loop of [Run] sends to one ledger, in order. *)
Definition ledger_lines (line_of : string → string → string)
    (m : gmap string (gset string)) : list string :=
  edges_in_order m ≫= λ e, [line_of e.1 e.2].

(** Each ledger that can be opened has grown by its lines. *)
Definition ledgers_grow (tls ils : list string) (st st' : state) : Prop :=
  ("transmission_log.txt" ∉ denied st →
   files st' !! "transmission_log.txt" = appended (files st !! "transmission_log.txt") tls) ∧
  ("infection_log.txt" ∉ denied st →
   files st' !! "infection_log.txt" = appended (files st !! "infection_log.txt") ils).

(** A step of the propagation: only the ledgers are touched, [evs] are the
    stream operations, [tls] and [ils] the lines added to the two ledgers. *)
Definition logged (evs : list event) (tls ils : list string) (st st' : state) : Prop :=
  confined is_ledger st st' ∧
  trace st' = trace st ++ evs ∧
  ledgers_grow tls ils st st'.

(** The strict byte order of [std::string], and the order in which the
    second loop of [Run] meets the edges: by host, then by neighbor. *)
Definition str_lt (s s' : string) : Prop := String.le s s' ∧ s ≠ s'.

Definition edge_lt (e e' : string * string) : Prop :=
  str_lt e.1 e'.1 ∨ (e.1 = e'.1 ∧ str_lt e.2 e'.2).

(** What [StealData] leaves in a sink that opened: the lines of the source,
    each followed by a newline; nothing for a missing source. *)
Definition captured (source : option string) : string := unlines (getlines source).

(** The stream operations of [write_file]: the stream is constructed on
    [file], and written to when it opened. *)
Definition write_events (locked : gset string) (file content : string) : list event :=
  EvOpen file ModeTrunc (bool_decide (file ∉ locked)) ::
  (if decide (file ∈ locked) then [] else [EvWrite file content]).

(** The stream operations of [StealData]: both streams are constructed, then
    each line of the source goes to the sink when both opened. *)
Definition steal_events (fs : gmap string string) (locked : gset string) : list event :=
  [ EvOpen "data.txt" ModeIn (bool_decide (is_Some (fs !! "data.txt")));
    EvOpen "stolen_data.txt" ModeTrunc (bool_decide ("stolen_data.txt" ∉ locked)) ] ++
  (if decide ("stolen_data.txt" ∈ locked) then []
   else (λ l, EvWrite "stolen_data.txt" (l +:+ endl)) <$> getlines (fs !! "data.txt")).

(** The stream operations of one run of the payload, in order. *)
Definition payload_events (email : string) (st : state) : list event :=
  steal_events (files st) (denied st) ++
  (contacts st ≫= λ k, write_events (denied st) (spam_file k) spam_email_content) ++
  (contacts st ≫= λ k,
     write_events (denied st) (replicated_file k) (email +:+ " replicated_prompt")).

(** ** Sample environments *)

Definition demo_one_edge : gmap string string :=
  {[ "connected_systems.txt" := "A B" +:+ endl ]}.

Definition demo_broadcast : gmap string string :=
  {[ "contacts.txt" := "x_adversarial_keyword" +:+ endl +:+ "y" +:+ endl +:+ "z" +:+ endl ]}.

Definition demo_topology : gmap string string :=
  {[ "connected_systems.txt" := "A B" +:+ endl +:+ "A C" +:+ endl +:+ "A B" +:+ endl ]}.

Definition demo_no_delimiter : gmap string string :=
  {[ "connected_systems.txt" := "A" +:+ endl ]}.

Definition demo_topology_shuffled : gmap string string :=
  {[ "connected_systems.txt" := "A C" +:+ endl +:+ "A B" +:+ endl +:+ "A C" ]}.

Definition demo_capture : gmap string string :=
  {[ "data.txt" := "secret" +:+ endl +:+ "more" ]}.


(** A triggering contact and one edge. *)
Definition demo_contact_and_edge : gmap string string :=
  {[ "contacts.txt" := "x_adversarial_keyword" +:+ endl;
     "connected_systems.txt" := "A B" +:+ endl ]}.

(** A triggering contact whose name holds a NUL after the name of a ledger,
    and one edge. *)
Definition nul_contact : string :=
  "transmission_log.txt" +:+ String nul "adversarial_keyword".

Definition demo_nul_contact : gmap string string :=
  {[ "contacts.txt" := nul_contact +:+ endl;
     "connected_systems.txt" := "A B" +:+ endl ]}.

Definition demo_quiet : gmap string string :=
  {[ "contacts.txt" := "alice" +:+ endl +:+ "bob" +:+ endl +:+ endl +:+ "bob" +:+ endl ]}.

Definition demo_capture_terminated : gmap string string :=
  {[ "data.txt" := "secret" +:+ endl +:+ endl +:+ "more" +:+ endl ]}.

(** ** Facts about strings *)

Section string_facts.
Implicit Types s t u pat : string.

Lemma str_app_nil_l s : "" +:+ s = s.
Proof. reflexivity. Qed.

Lemma str_app_cons c s t : String c s +:+ t = String c (s +:+ t).
Proof. reflexivity. Qed.

Lemma str_app_nil_r s : s +:+ "" = s.
Proof. induction s as [|c s IH]; [done|]. by rewrite str_app_cons, IH. Qed.

Lemma str_app_assoc s t u : s +:+ t +:+ u = (s +:+ t) +:+ u.
Proof. induction s as [|c s IH]; [done|]. by rewrite !str_app_cons, IH. Qed.

Lemma str_length_app s t :
  String.length (s +:+ t) = (String.length s + String.length t)%nat.
Proof. induction s as [|c s IH]; [done|]. rewrite str_app_cons. simpl. by rewrite IH. Qed.

Lemma size_app s t : size (s +:+ t) = size s + size t.
Proof. unfold size. rewrite str_length_app. lia. Qed.

Lemma size_nonneg s : 0 ≤ size s.
Proof. unfold size. lia. Qed.

Lemma str_take_0 s : take 0 s = "".
Proof. by destruct s. Qed.

Lemma str_take_app_length s t : take (String.length s) (s +:+ t) = s.
Proof.
  induction s as [|c s IH]; [apply str_take_0|].
  rewrite str_app_cons. simpl. by rewrite IH.
Qed.

Lemma str_drop_app_length s t : drop (String.length s) (s +:+ t) = t.
Proof. induction s as [|c s IH]; [by destruct t|]. by rewrite str_app_cons. Qed.

Lemma str_take_all n s : (String.length s ≤ n)%nat → take n s = s.
Proof.
  revert n. induction s as [|c s IH]; intros [|n] Hn; simpl in *; try done; [lia|].
  rewrite IH; [done|lia].
Qed.

Lemma str_take_drop n s : take n s +:+ drop n s = s.
Proof.
  revert n. induction s as [|c s IH]; intros [|n]; try done.
  simpl. by rewrite str_app_cons, IH.
Qed.

Lemma str_length_take n s : (n ≤ String.length s)%nat → String.length (take n s) = n.
Proof.
  revert n. induction s as [|c s IH]; intros [|n] Hn; simpl in *; try done; [lia|].
  rewrite IH; [done|lia].
Qed.

(** [substr] does throw past the end, and only there. *)
Example substr_out_of_range :
  substr "ab" 3 npos = None ∧ substr "ab" 2 npos = Some "" ∧ substr "ab" 1 npos = Some "b".
Proof. by repeat split. Qed.

Lemma starts_with_spec pat s :
  starts_with pat s = true ↔ ∃ post, s = pat +:+ post.
Proof.
  revert s. induction pat as [|a pat IH]; intros s; simpl.
  { split; [eexists; by rewrite str_app_nil_l|done]. }
  destruct s as [|b s].
  { split; [done|]. intros [post Hp]. by rewrite str_app_cons in Hp. }
  case_decide as Hab.
  - subst b. rewrite IH. split; intros [post Hp]; exists post.
    + by rewrite str_app_cons, Hp.
    + rewrite str_app_cons in Hp. by simplify_eq.
  - split; [done|]. intros [post Hp]. rewrite str_app_cons in Hp. by simplify_eq.
Qed.

Lemma find_at_first_occ pat s i :
  find_at pat s i = from_option (λ k, i + Z.of_nat k) npos (first_occ pat s).
Proof.
  revert i. induction s as [|c s IH]; intros i; simpl.
  - destruct (starts_with pat ""); simpl; [lia|done].
  - destruct (starts_with pat (String c s)); simpl; [lia|].
    rewrite IH. destruct (first_occ pat s); simpl; [lia|done].
Qed.

Lemma first_occ_Some pat s k :
  first_occ pat s = Some k →
  (k ≤ String.length s)%nat ∧ ∃ post, s = take k s +:+ pat +:+ post.
Proof.
  revert k. induction s as [|c s IH]; intros k; simpl.
  - destruct (starts_with pat "") eqn:Hp; [|done].
    intros [= <-]. split; [done|]. apply starts_with_spec in Hp as [post ->].
    exists post. by rewrite str_take_0.
  - destruct (starts_with pat (String c s)) eqn:Hp.
    + intros [= <-]. split; [lia|]. apply starts_with_spec in Hp as [post Hp].
      exists post. by rewrite str_take_0.
    + destruct (first_occ pat s) as [k'|] eqn:Hocc; [|done].
      intros [= <-]. destruct (IH k' eq_refl) as [Hk [post Hs]].
      split; [simpl; lia|]. exists post. simpl. by rewrite str_app_cons, <- Hs.
Qed.

Lemma first_occ_min pat s k pre post :
  first_occ pat s = Some k → s = pre +:+ pat +:+ post → (k ≤ String.length pre)%nat.
Proof.
  revert k pre. induction s as [|c s IH]; intros k pre; simpl.
  - destruct (starts_with pat ""); [|done]. intros [= <-]. lia.
  - destruct (starts_with pat (String c s)) eqn:Hp; [intros [= <-]; lia|].
    destruct (first_occ pat s) as [k'|] eqn:Hocc; [|done].
    intros [= <-] Hs. destruct pre as [|a pre].
    + rewrite str_app_nil_l in Hs.
      assert (starts_with pat (String c s) = true) as Hp'
        by (apply starts_with_spec; eauto).
      congruence.
    + rewrite str_app_cons in Hs. simplify_eq. simpl.
      specialize (IH k' pre eq_refl eq_refl). lia.
Qed.

Lemma first_occ_None pat s : first_occ pat s = None → ¬ contains s pat.
Proof.
  induction s as [|c s IH]; simpl.
  - destruct (starts_with pat "") eqn:Hp; [done|]. intros _ (pre & post & Hs).
    destruct pre; [|by rewrite str_app_cons in Hs].
    rewrite str_app_nil_l in Hs.
    assert (starts_with pat "" = true) by (apply starts_with_spec; eauto).
    congruence.
  - destruct (starts_with pat (String c s)) eqn:Hp; [done|].
    destruct (first_occ pat s) eqn:Hocc; [done|]. intros _ (pre & post & Hs).
    destruct pre as [|a pre].
    + rewrite str_app_nil_l in Hs.
      assert (starts_with pat (String c s) = true)
        by (apply starts_with_spec; eauto).
      congruence.
    + rewrite str_app_cons in Hs. simplify_eq. apply IH; [done|]. by exists pre, post.
Qed.

Lemma first_occ_is_Some pat s : is_Some (first_occ pat s) ↔ contains s pat.
Proof.
  split.
  - intros [k Hk]. destruct (first_occ_Some _ _ _ Hk) as [_ [post Hs]].
    by exists (take k s), post.
  - intros Hc. destruct (first_occ pat s) eqn:Hocc; [done|].
    by apply first_occ_None in Hocc.
Qed.

(** [find] on a string that fits in [size_t]: a real position is returned
    exactly when the pattern occurs, and it is never [npos]. *)
Lemma find_npos_iff s pat : representable s → find s pat = npos ↔ ¬ contains s pat.
Proof.
  intros Hrep. unfold find. rewrite find_at_first_occ.
  destruct (first_occ pat s) as [k|] eqn:Hocc; simpl.
  - destruct (first_occ_Some _ _ _ Hocc) as [Hk _].
    unfold representable, size in Hrep. split; [lia|].
    intros Hn. destruct Hn. apply first_occ_is_Some. eauto.
  - split; [|done]. intros _. by apply first_occ_None.
Qed.

End string_facts.

(** ** Reading lines *)

Section stream_facts.
Implicit Types l rest : string.

Lemma no_newline_cons c l : ¬ contains (String c l) endl → c ≠ newline ∧ ¬ contains l endl.
Proof.
  intros Hno. split.
  - intros ->. apply Hno. by exists "", l.
  - intros (pre & post & ->). apply Hno. by exists (String c pre), post.
Qed.

(** A terminated line is delivered as it is, and reading goes on after it. *)
Lemma read_lines_line l rest :
  ¬ contains l endl → read_lines (l +:+ endl +:+ rest) = l :: read_lines rest.
Proof.
  induction l as [|c l IH]; intros Hno.
  - rewrite str_app_nil_l. change (endl +:+ rest) with (String newline rest).
    simpl. repeat case_decide; done.
  - apply no_newline_cons in Hno as [Hc Hl]. rewrite str_app_cons. simpl.
    case_decide; [done|]. by rewrite IH.
Qed.

(** A last line without its newline is delivered all the same. *)
Lemma read_lines_unterminated l :
  l ≠ "" → ¬ contains l endl → read_lines l = [l].
Proof.
  induction l as [|c l IH]; intros Hne Hno; [done|].
  apply no_newline_cons in Hno as [Hc Hl]. simpl. case_decide; [done|].
  destruct l as [|c' l']; [done|]. by rewrite IH.
Qed.

Lemma read_lines_unlines (ls : list string) :
  Forall (λ l, ¬ contains l endl) ls → read_lines (unlines ls) = ls.
Proof.
  induction 1 as [|l ls Hl _ IH]; [done|]. simpl. by rewrite read_lines_line, IH.
Qed.

End stream_facts.

(** ** The monad *)

Section monad_facts.

Lemma steps_elim {A} (m : M A) R st a st' :
  steps m R → m st = Ok (a, st') → R st a st'.
Proof. intros Hm Hrun. destruct (Hm st) as (a' & st1 & Hrun' & HR). congruence. Qed.

Lemma steps_weaken {A} (m : M A) (R R' : state → A → state → Prop) :
  steps m R → (∀ st a st', R st a st' → R' st a st') → steps m R'.
Proof. intros Hm Himp st. destruct (Hm st) as (a & st' & ? & ?). eauto. Qed.

Lemma steps_conj {A} (m : M A) (R R' : state → A → state → Prop) :
  steps m R → steps m R' → steps m (λ st a st', R st a st' ∧ R' st a st').
Proof.
  intros Hm Hm' st. destruct (Hm st) as (a & st' & Hrun & ?).
  exists a, st'. split; [done|]. split; [done|]. by apply (steps_elim m R').
Qed.

Lemma steps_ret {A} (a : A) (R : state → A → state → Prop) :
  (∀ st, R st a st) → steps (ret a) R.
Proof. intros HR st. by exists a, st. Qed.

Lemma steps_bind {A B} (m : M A) (k : A → M B) R1 R2 (R : state → B → state → Prop) :
  steps m R1 →
  (∀ a, steps (k a) (R2 a)) →
  (∀ st a st' b st'', R1 st a st' → R2 a st' b st'' → R st b st'') →
  steps (bind m k) R.
Proof.
  intros Hm Hk Hcomp st. destruct (Hm st) as (a & st' & Hrun & H1).
  destruct (Hk a st') as (b & st'' & Hrun' & H2).
  exists b, st''. unfold bind. rewrite Hrun. eauto.
Qed.

Lemma steps_for_each {A} (body : A → M unit) (Rb : A → state → state → Prop)
    (I : list A → state → state → Prop) :
  (∀ st, I [] st st) →
  (∀ x l st st' st'', Rb x st st' → I l st' st'' → I (x :: l) st st'') →
  (∀ x, steps (body x) (λ st _ st', Rb x st st')) →
  ∀ l, steps (for_each l body) (λ st _ st', I l st st').
Proof.
  intros Hnil Hcons Hbody l. induction l as [|x l IH]; simpl.
  - by apply steps_ret.
  - eapply steps_bind; [apply Hbody|intros ?; apply IH|]. simpl. eauto.
Qed.

End monad_facts.

Lemma same_globals_refl st : same_globals st st.
Proof. by repeat split. Qed.

Lemma same_globals_trans st1 st2 st3 :
  same_globals st1 st2 → same_globals st2 st3 → same_globals st1 st3.
Proof. unfold same_globals. intros (?&?&?&?) (?&?&?&?). repeat split; congruence. Qed.

Lemma files_agree_off_refl P st : files_agree_off P st st.
Proof. by intros ??. Qed.

Lemma files_agree_off_trans P st1 st2 st3 :
  files_agree_off P st1 st2 → files_agree_off P st2 st3 → files_agree_off P st1 st3.
Proof. intros H1 H2 path ?. rewrite H2, H1; done. Qed.

Lemma files_agree_off_mono (P Q : string → Prop) st st' :
  (∀ path, P path → Q path) → files_agree_off P st st' → files_agree_off Q st st'.
Proof. intros HPQ H path ?. apply H. naive_solver. Qed.

(** ** Splitting a topology line *)

Section split_facts.
Implicit Types line host rest : string.

Lemma size_t_wrap_npos_succ : size_t_wrap (npos + 1) = 0.
Proof. reflexivity. Qed.

Lemma size_t_wrap_le z : 0 ≤ z → size_t_wrap z ≤ z.
Proof. intros. apply Z.mod_le; [done|]. by compute. Qed.

Lemma size_t_wrap_small z : 0 ≤ z ≤ npos → size_t_wrap z = z.
Proof.
  intros Hz. apply Z.mod_small. replace (2 ^ size_t_bits) with (npos + 1) by reflexivity. lia.
Qed.

Lemma find_space line :
  find line " " = from_option Z.of_nat npos (first_occ " " line).
Proof.
  unfold find. rewrite find_at_first_occ. by destruct (first_occ " " line).
Qed.

Lemma first_occ_space_bound line k :
  first_occ " " line = Some k → (k + 1 ≤ String.length line)%nat.
Proof.
  intros Hocc. destruct (first_occ_Some _ _ _ Hocc) as [Hk [post Hs]].
  rewrite Hs, !str_length_app, str_length_take by done. simpl. lia.
Qed.

(** [substr] never throws inside [split_line]: a found delimiter sits
    inside the line, and for a missing one [npos + 1] wraps to [0]. *)
Lemma split_line_fields line st : split_line line st = Ok (fields line, st).
Proof.
  unfold split_line, fields, substr, bind.
  pose proof (size_nonneg line) as Hsz.
  assert ((size line <? 0) = false) as -> by lia. simpl lift_substr.
  assert ((size line <? size_t_wrap (find line " " + 1)) = false) as ->; [|done].
  rewrite find_space. destruct (first_occ " " line) as [k|] eqn:Hocc; simpl.
  - apply first_occ_space_bound in Hocc.
    pose proof (size_t_wrap_le (Z.of_nat k + 1)). unfold size. lia.
  - rewrite size_t_wrap_npos_succ. lia.
Qed.

Lemma take_no_space n line : ¬ contains line " " → ¬ contains (take n line) " ".
Proof.
  intros Hline (pre & post & Hs). apply Hline.
  exists pre, (post +:+ drop n line).
  rewrite <- (str_take_drop n line) at 1. rewrite Hs. by rewrite !str_app_assoc.
Qed.

(** The host field never contains the delimiter. *)
Lemma fields_host_no_space line : ¬ contains (fields line).1 " ".
Proof.
  unfold fields. cbn [fst]. change (drop (Z.to_nat 0) line) with line.
  rewrite find_space.
  destruct (first_occ " " line) as [k|] eqn:Hocc; simpl from_option.
  - pose proof (first_occ_space_bound _ _ Hocc) as Hk.
    replace (Z.to_nat (Z.min (Z.of_nat k) (size line - 0))) with k
      by (unfold size; lia).
    intros (pre & post & Hs).
    assert (k ≤ String.length pre)%nat as Hmin.
    { eapply (first_occ_min " " line k pre (post +:+ drop k line)); [done|].
      rewrite <- (str_take_drop k line) at 1. rewrite Hs.
      by rewrite !str_app_assoc. }
    assert (String.length (take k line) = k) as Hlen by (apply str_length_take; lia).
    rewrite Hs, !str_length_app in Hlen. simpl in Hlen. lia.
  - apply take_no_space. intros Hc. apply first_occ_is_Some in Hc as [? ?]. congruence.
Qed.

Lemma first_occ_space_app host rest :
  ¬ contains host " " → first_occ " " (host +:+ " " +:+ rest) = Some (String.length host).
Proof.
  induction host as [|c host IH]; intros Hns; [done|].
  rewrite str_app_cons. simpl. case_decide as Hc.
  - destruct Hns. exists "", host. by subst c.
  - rewrite IH; [done|]. intros (pre & post & ->). apply Hns.
    by exists (String c pre), post.
Qed.

(** A well-formed line is cut at its first space. *)
Lemma fields_space host rest :
  representable (host +:+ " " +:+ rest) → ¬ contains host " " →
  fields (host +:+ " " +:+ rest) = (host, rest).
Proof.
  intros Hrep Hns. unfold fields. rewrite find_space, first_occ_space_app by done.
  simpl from_option. unfold representable in Hrep.
  rewrite !size_app in *. change (size " ") with 1 in *.
  pose proof (size_nonneg host). pose proof (size_nonneg rest).
  rewrite size_t_wrap_small by (unfold size in *; lia).
  change (drop (Z.to_nat 0) ?s) with s.
  f_equal.
  - replace (Z.to_nat _) with (String.length host) by (unfold size in *; lia).
    apply str_take_app_length.
  - replace (Z.to_nat (Z.of_nat (String.length host) + 1))
      with (String.length (host +:+ " ")) by (rewrite str_length_app; simpl; lia).
    rewrite (str_app_assoc host " " rest), str_drop_app_length.
    apply str_take_all. unfold size in *. lia.
Qed.

(** A line without a space is both fields: [npos + 1] is [0], so the second
    [substr] starts at the beginning of the line again. *)
Lemma fields_no_space line :
  representable line → ¬ contains line " " → fields line = (line, line).
Proof.
  intros Hrep Hns. unfold fields. rewrite find_space.
  destruct (first_occ " " line) eqn:Hocc.
  { destruct Hns. apply first_occ_is_Some. eauto. }
  simpl from_option. rewrite size_t_wrap_npos_succ. unfold representable in Hrep.
  pose proof (size_nonneg line).
  replace (Z.to_nat (Z.min npos (size line - 0))) with (String.length line)
    by (unfold size in *; lia).
  change (drop (Z.to_nat 0) line) with line. by rewrite str_take_all.
Qed.

End split_facts.

(** ** Init: loading the contacts and building the topology *)

Section init_facts.

Lemma build_from_snoc m ls line :
  build_from m (ls ++ [line]) =
  insert_neighbor (fields line).1 (fields line).2 (build_from m ls).
Proof. unfold build_from. by rewrite foldl_app. Qed.

Lemma IdentifyConnectedSystems_spec :
  steps IdentifyConnectedSystems (λ st _ st',
    contacts st' = contacts st ∧
    infected_systems st' = infected_systems st ∧
    denied st' = denied st ∧
    files st' = files st ∧
    connected_systems st' =
      build_from (connected_systems st) (getlines (files st !! "connected_systems.txt")) ∧
    trace st' = trace st ++
      [EvOpen "connected_systems.txt" ModeIn
         (bool_decide (is_Some (files st !! "connected_systems.txt")))]).
Proof.
  unfold IdentifyConnectedSystems.
  eapply (steps_bind _ _
    (λ st r st', r = files st !! "connected_systems.txt" ∧
                 st' = log_event (EvOpen "connected_systems.txt" ModeIn
                                    (bool_decide (is_Some r))) st)
    (λ r st _ st',
       contacts st' = contacts st ∧ infected_systems st' = infected_systems st ∧
       denied st' = denied st ∧ files st' = files st ∧ trace st' = trace st ∧
       connected_systems st' = build_from (connected_systems st) (getlines r))).
  - intros st. by eexists _, _.
  - intros r.
    apply (steps_for_each _
      (λ line st st', st' = set_connected_systems
         (insert_neighbor (fields line).1 (fields line).2 (connected_systems st)) st)
      (λ l st st',
         contacts st' = contacts st ∧ infected_systems st' = infected_systems st ∧
         denied st' = denied st ∧ files st' = files st ∧ trace st' = trace st ∧
         connected_systems st' = build_from (connected_systems st) l)).
    + done.
    + intros line l st st' st'' -> (?&?&?&?&?&?). by repeat split.
    + intros line st. unfold bind. rewrite split_line_fields.
      destruct (fields line) as [host system]. by eexists _, _.
  - intros st r st' [] st'' [-> ->] (?&?&?&?&?&?). simpl in *. by repeat split.
Qed.

Lemma Initialize_spec :
  steps Initialize (λ st _ st',
    contacts st' = contacts st ++ getlines (files st !! "contacts.txt") ∧
    infected_systems st' = infected_systems st ∧
    denied st' = denied st ∧
    files st' = files st ∧
    connected_systems st' =
      build_from (connected_systems st) (getlines (files st !! "connected_systems.txt")) ∧
    trace st' = trace st ++
      [EvOpen "contacts.txt" ModeIn (bool_decide (is_Some (files st !! "contacts.txt")));
       EvOpen "connected_systems.txt" ModeIn
         (bool_decide (is_Some (files st !! "connected_systems.txt")))]).
Proof.
  unfold Initialize.
  eapply (steps_bind _ _
    (λ st r st', r = files st !! "contacts.txt" ∧
                 st' = log_event (EvOpen "contacts.txt" ModeIn (bool_decide (is_Some r))) st)
    (λ r st _ st',
       contacts st' = contacts st ++ getlines r ∧
       infected_systems st' = infected_systems st ∧
       denied st' = denied st ∧ files st' = files st ∧
       connected_systems st' =
         build_from (connected_systems st) (getlines (files st !! "connected_systems.txt")) ∧
       trace st' = trace st ++
         [EvOpen "connected_systems.txt" ModeIn
            (bool_decide (is_Some (files st !! "connected_systems.txt")))])).
  - intros st. by eexists _, _.
  - intros r.
    eapply (steps_bind _ _
      (λ st _ st',
         contacts st' = contacts st ++ getlines r ∧
         infected_systems st' = infected_systems st ∧
         denied st' = denied st ∧ files st' = files st ∧
         connected_systems st' = connected_systems st ∧ trace st' = trace st)).
    + apply (steps_for_each _
        (λ contact st st', st' = push_contact contact st)
        (λ l st st',
           contacts st' = contacts st ++ l ∧
           infected_systems st' = infected_systems st ∧
           denied st' = denied st ∧ files st' = files st ∧
           connected_systems st' = connected_systems st ∧ trace st' = trace st)).
      * intros st. by rewrite app_nil_r.
      * intros contact l st st' st'' -> (?&?&?&?&?&?). simpl in *.
        repeat split; try done. by rewrite (cons_middle contact), (assoc_L (++)).
      * intros contact st. by eexists _, _.
    + intros ?. apply IdentifyConnectedSystems_spec.
    + intros st [] st' [] st'' (?&?&?&Hf&Hc&?) (?&?&?&?&?&?). simpl in *.
      rewrite Hf, Hc in *. repeat split; congruence.
  - intros st r st' [] st'' [-> ->] (?&?&?&?&?&Ht). simpl in *.
    repeat split; try done. rewrite Ht. by rewrite <- (assoc_L (++)).
Qed.

End init_facts.

(** ** The topology map *)

Section topology_facts.
Implicit Types m : gmap string (gset string).

Lemma subscript_lookup host m :
  default ∅ (subscript host m !! host) = default ∅ (m !! host).
Proof.
  unfold subscript. destruct (m !! host) eqn:Hm; [by rewrite Hm|].
  by rewrite lookup_insert_eq.
Qed.

Lemma subscript_lookup_ne host host' m :
  host ≠ host' → subscript host m !! host' = m !! host'.
Proof.
  intros. unfold subscript. destruct (m !! host); [done|].
  by rewrite lookup_insert_ne.
Qed.

Lemma insert_neighbor_lookup host system m :
  insert_neighbor host system m !! host = Some ({[system]} ∪ neighbors_of m host).
Proof.
  unfold insert_neighbor, neighbors_of. by rewrite lookup_insert_eq, subscript_lookup.
Qed.

Lemma insert_neighbor_lookup_ne host host' system m :
  host ≠ host' → insert_neighbor host system m !! host' = m !! host'.
Proof.
  intros. unfold insert_neighbor. by rewrite lookup_insert_ne, subscript_lookup_ne.
Qed.

Lemma elem_of_insert_neighbor host system m host' n :
  n ∈ neighbors_of (insert_neighbor host system m) host' ↔
  (host' = host ∧ n = system) ∨ n ∈ neighbors_of m host'.
Proof.
  destruct (decide (host = host')) as [<-|Hne].
  - unfold neighbors_of at 1. rewrite insert_neighbor_lookup. simpl. set_solver.
  - unfold neighbors_of. rewrite insert_neighbor_lookup_ne by done. naive_solver.
Qed.

Lemma elem_of_build_from m ls host n :
  n ∈ neighbors_of (build_from m ls) host ↔
  n ∈ neighbors_of m host ∨ ∃ line, line ∈ ls ∧ fields line = (host, n).
Proof.
  induction ls as [|line ls IH] using rev_ind.
  - simpl. split; [auto|]. intros [?|(?&?%elem_of_nil&_)]; done.
  - rewrite build_from_snoc, elem_of_insert_neighbor, IH. split.
    + intros [[-> ->]|[?|(l & ? & ?)]]; [right|by left|right].
      * exists line. split; [set_solver|]. by destruct (fields line).
      * exists l. split; [set_solver|done].
    + intros [?|(l & [?| ->%list_elem_of_singleton]%elem_of_app & Hl)]; [eauto..|].
      left. by rewrite Hl.
Qed.

Lemma build_from_lookup_None m ls host :
  build_from m ls !! host = None ↔
  m !! host = None ∧ ∀ line, line ∈ ls → (fields line).1 ≠ host.
Proof.
  induction ls as [|line ls IH] using rev_ind.
  - simpl. split; [|naive_solver]. intros ?. split; [done|]. by intros ? ?%elem_of_nil.
  - rewrite build_from_snoc.
    destruct (decide ((fields line).1 = host)) as [<-|Hne].
    + rewrite insert_neighbor_lookup. split; [done|]. intros [_ Hl].
      destruct (Hl line); [set_solver|done].
    + rewrite insert_neighbor_lookup_ne, IH by done. split.
      * intros [? Hl]. split; [done|].
        intros l [?| ->%list_elem_of_singleton]%elem_of_app; auto.
      * intros [? Hl]. split; [done|]. intros l ?. apply Hl. set_solver.
Qed.

Lemma insert_neighbor_nonempty host system m :
  sets_nonempty m → sets_nonempty (insert_neighbor host system m).
Proof.
  intros Hm host' s. destruct (decide (host = host')) as [<-|Hne].
  - rewrite insert_neighbor_lookup. intros [= <-]. set_solver.
  - rewrite insert_neighbor_lookup_ne by done. apply Hm.
Qed.

Lemma build_from_nonempty m ls : sets_nonempty m → sets_nonempty (build_from m ls).
Proof.
  intros Hm. induction ls as [|line ls IH] using rev_ind; [done|].
  rewrite build_from_snoc. by apply insert_neighbor_nonempty.
Qed.

Lemma build_from_keys_no_space m ls : keys_no_space m → keys_no_space (build_from m ls).
Proof.
  intros Hm. induction ls as [|line ls IH] using rev_ind; [done|].
  rewrite build_from_snoc. intros host.
  destruct (decide ((fields line).1 = host)) as [<-|Hne].
  - intros _. apply fields_host_no_space.
  - rewrite insert_neighbor_lookup_ne by done. apply IH.
Qed.

Lemma in_order_perm (s : gset string) : in_order s ≡ₚ elements s.
Proof. apply merge_sort_Permutation. Qed.

Lemma elem_of_in_order (s : gset string) x : x ∈ in_order s ↔ x ∈ s.
Proof. by rewrite in_order_perm, elem_of_elements. Qed.

Lemma NoDup_in_order (s : gset string) : NoDup (in_order s).
Proof. rewrite in_order_perm. apply NoDup_elements. Qed.

Lemma elem_of_edges_in_order m host system :
  (host, system) ∈ edges_in_order m ↔ system ∈ neighbors_of m host.
Proof.
  unfold edges_in_order, neighbors_of. rewrite list_elem_of_bind. split.
  - intros (h & (n & Hhn & Hn)%list_elem_of_bind & _).
    apply list_elem_of_singleton in Hhn as [= -> ->]. by apply elem_of_in_order.
  - intros Hn. exists host. split.
    + apply list_elem_of_bind. exists system. split; [set_solver|].
      by apply elem_of_in_order.
    + apply elem_of_in_order, elem_of_dom.
      destruct (m !! host); [done|set_solver].
Qed.


End topology_facts.

(** ** The trigger classifier *)

(** C4: [IsAdversarialPrompt] takes nothing but its argument, and on every
    string (of a size a [std::string] can have) it answers true exactly when
    the marker [adversarial_keyword] occurs in it as a contiguous run of the
    same characters, at any position; without the marker it answers false. *)
Theorem IsAdversarialPrompt_iff_contains (email : string) :
  representable email →
  (IsAdversarialPrompt email = true ↔ contains email "adversarial_keyword") ∧
  (¬ contains email "adversarial_keyword" → IsAdversarialPrompt email = false).
Proof.
  intros Hrep. unfold IsAdversarialPrompt.
  pose proof (find_npos_iff email marker Hrep) as Hfind. fold marker.
  destruct (Z.eqb_spec (find email marker) npos) as [Heq|Hne]; simpl.
  - apply Hfind in Heq. split; [|done]. split; [done|]. intros ?. by destruct Heq.
  - split; [|intros Hno; by apply Hfind in Hno]. split; [intros _|done].
    destruct (first_occ_is_Some marker email) as [Hc _]. apply Hc.
    destruct (first_occ marker email) eqn:Hocc; [done|].
    apply first_occ_None, Hfind in Hocc. done.
Qed.

Lemma IsAdversarialPrompt_iff_contains_witness :
  representable "x_adversarial_keyword" ∧
  (IsAdversarialPrompt "x_adversarial_keyword" = true ↔
   contains "x_adversarial_keyword" "adversarial_keyword") ∧
  (¬ contains "x_adversarial_keyword" "adversarial_keyword" →
   IsAdversarialPrompt "x_adversarial_keyword" = false).
Proof.
  assert (representable "x_adversarial_keyword") as Hrep by reflexivity.
  exact (conj Hrep (IsAdversarialPrompt_iff_contains _ Hrep)).
Defined.

(** The match is on the exact bytes: other letter case is not the marker. *)
Example IsAdversarialPrompt_case_sensitive :
  IsAdversarialPrompt "Adversarial_Keyword" = false ∧
  IsAdversarialPrompt "say adversarial_keyword twice" = true.
Proof. split; reflexivity. Qed.

(** ** Building the topology *)

(** C7: when the topology source holds the well-formed lines of [edges]
    (host without a space, one space, neighbor), the map built from an empty
    one gives each host exactly the neighbors seen for it, each once however
    often its line is repeated, and has no entry for a string that is no
    line's host. *)
Theorem IdentifyConnectedSystems_collects (st : state) (edges : list (string * string)) :
  connected_systems st = ∅ →
  Forall (λ e, ¬ contains e.1 " " ∧ representable (topology_line e)) edges →
  getlines (files st !! "connected_systems.txt") = topology_line <$> edges →
  ∃ st', IdentifyConnectedSystems st = Ok (tt, st') ∧
    (∀ host n, n ∈ neighbors_of (connected_systems st') host ↔ (host, n) ∈ edges) ∧
    (∀ host, NoDup (in_order (neighbors_of (connected_systems st') host)) ∧
             ∀ n, n ∈ in_order (neighbors_of (connected_systems st') host) ↔
                  (host, n) ∈ edges) ∧
    (∀ host, host ∉ edges.*1 → connected_systems st' !! host = None).
Proof.
  intros Hempty Hwf Hlines.
  destruct (IdentifyConnectedSystems_spec st) as ([] & st' & Hrun & _ & _ & _ & _ & Hm & _).
  exists st'. split; [done|]. rewrite Hm, Hempty, Hlines. clear Hm Hrun Hlines.
  assert (∀ e, e ∈ edges → fields (topology_line e) = e) as Hfields.
  { intros [h n] He. rewrite Forall_forall in Hwf. destruct (Hwf _ He) as [Hns Hrep].
    by apply fields_space. }
  assert (∀ host n, n ∈ neighbors_of (build_from ∅ (topology_line <$> edges)) host ↔
                    (host, n) ∈ edges) as Hmem.
  { intros host n. rewrite elem_of_build_from. unfold neighbors_of at 1.
    rewrite lookup_empty. simpl. split.
    - intros [?|(line & (e & -> & He)%list_elem_of_fmap & Hl)]; [set_solver|].
      rewrite Hfields in Hl by done. by subst e.
    - intros He. right. exists (topology_line (host, n)). split.
      + apply list_elem_of_fmap. eauto.
      + by apply Hfields. }
  split; [done|]. split.
  - intros host. split; [apply NoDup_in_order|]. intros n. by rewrite elem_of_in_order.
  - intros host Hhost. apply build_from_lookup_None. split; [apply lookup_empty|].
    intros line (e & -> & He)%list_elem_of_fmap Hl. apply Hhost.
    rewrite Hfields in Hl by done. apply list_elem_of_fmap. eauto.
Qed.

Lemma IdentifyConnectedSystems_collects_witness :
  ∃ st', IdentifyConnectedSystems (initial_state demo_topology ∅) = Ok (tt, st') ∧
    (∀ host n, n ∈ neighbors_of (connected_systems st') host ↔
               (host, n) ∈ [("A", "B"); ("A", "C"); ("A", "B")]) ∧
    (∀ host, NoDup (in_order (neighbors_of (connected_systems st') host)) ∧
             ∀ n, n ∈ in_order (neighbors_of (connected_systems st') host) ↔
                  (host, n) ∈ [("A", "B"); ("A", "C"); ("A", "B")]) ∧
    (∀ host, host ∉ [("A", "B"); ("A", "C"); ("A", "B")].*1 →
             connected_systems st' !! host = None).
Proof.
  apply (IdentifyConnectedSystems_collects (initial_state demo_topology ∅)
           [("A", "B"); ("A", "C"); ("A", "B")]).
  - reflexivity.
  - repeat constructor; simpl; by apply first_occ_None.
  - reflexivity.
Defined.

(** C3, as stated, fails: the line [A] has no space, yet the neighbor
    recorded for host [A] is [A] itself and not the empty string. *)
Lemma no_delimiter_neighbor_not_empty :
  ∃ st', IdentifyConnectedSystems (initial_state demo_no_delimiter ∅) = Ok (tt, st') ∧
    "A" ∈ getlines (demo_no_delimiter !! "connected_systems.txt") ∧
    ¬ contains "A" " " ∧
    ("" ∉ neighbors_of (connected_systems st') "A") ∧
    elements (neighbors_of (connected_systems st') "A") = ["A"].
Proof.
  eexists. split; [reflexivity|]. split; [|split; [|split]].
  - vm_compute. left.
  - by apply first_occ_None.
  - rewrite <- elem_of_elements. vm_compute. by intros ?%list_elem_of_singleton.
  - reflexivity.
Qed.

(** C3, amended: for every line of the topology source without a space,
    [IdentifyConnectedSystems] takes the whole line as the host and the whole
    line again as its neighbor, so after the build the line is in its own
    neighbor set. *)
Theorem no_delimiter_line_is_own_neighbor (st : state) (line : string) :
  representable line →
  ¬ contains line " " →
  line ∈ getlines (files st !! "connected_systems.txt") →
  (split_line line st = Ok ((line, line), st)) ∧
  ∃ st', IdentifyConnectedSystems st = Ok (tt, st') ∧
         line ∈ neighbors_of (connected_systems st') line.
Proof.
  intros Hrep Hns Hline. split.
  - by rewrite split_line_fields, fields_no_space.
  - destruct (IdentifyConnectedSystems_spec st) as ([] & st' & Hrun & _ & _ & _ & _ & Hm & _).
    exists st'. split; [done|]. rewrite Hm. apply elem_of_build_from. right.
    exists line. split; [done|]. by apply fields_no_space.
Qed.

Lemma no_delimiter_line_is_own_neighbor_witness :
  (split_line "A" (initial_state demo_no_delimiter ∅)
     = Ok (("A", "A"), initial_state demo_no_delimiter ∅)) ∧
  ∃ st', IdentifyConnectedSystems (initial_state demo_no_delimiter ∅) = Ok (tt, st') ∧
         "A" ∈ neighbors_of (connected_systems st') "A".
Proof.
  apply (no_delimiter_line_is_own_neighbor (initial_state demo_no_delimiter ∅) "A").
  - reflexivity.
  - by apply first_occ_None.
  - vm_compute. left.
Defined.

(** ** File names *)

Section path_facts.
Implicit Types k suf s : string.

Lemma ends_with_refl s : ends_with s s = true.
Proof. destruct s; simpl; try case_decide; done. Qed.

Lemma app_eq_ends_with k suf s : k +:+ suf = s → ends_with suf s = true.
Proof.
  revert s. induction k as [|c k IH]; intros s <-.
  - apply ends_with_refl.
  - rewrite str_app_cons. simpl. case_decide; [done|]. by apply IH.
Qed.

Lemma app_eq_app_ends_with k s k' s' :
  k +:+ s = k' +:+ s' → ends_with s s' = true ∨ ends_with s' s = true.
Proof.
  revert k'. induction k as [|c k IH]; intros k' Heq.
  - right. rewrite str_app_nil_l in Heq. symmetry in Heq. by apply app_eq_ends_with in Heq.
  - destruct k' as [|c' k'].
    + left. rewrite str_app_nil_l in Heq. by apply app_eq_ends_with in Heq.
    + rewrite !str_app_cons in Heq. injection Heq as -> Heq. by apply IH in Heq.
Qed.

Lemma no_nul_cons c s : no_nul (String c s) → c ≠ nul ∧ no_nul s.
Proof.
  intros Hno. split.
  - intros ->. apply Hno. by exists "", s.
  - intros (pre & post & ->). apply Hno. by exists (String c pre), post.
Qed.

(** A name without a NUL before the suffix is opened up to the first NUL of
    the suffix; the two suffixes of the program hold none. *)
Lemma c_str_app k suf : no_nul k → c_str (k +:+ suf) = k +:+ c_str suf.
Proof.
  induction k as [|c k IH]; intros Hno; [by rewrite !str_app_nil_l|].
  apply no_nul_cons in Hno as [Hc Hk]. rewrite !str_app_cons. simpl.
  case_decide; [done|]. by rewrite IH.
Qed.

Lemma spam_file_no_nul k : no_nul k → spam_file k = spam_path k.
Proof. intros Hno. unfold spam_file, spam_path. by rewrite c_str_app. Qed.

Lemma replicated_file_no_nul k : no_nul k → replicated_file k = replicated_path k.
Proof. intros Hno. unfold replicated_file, replicated_path. by rewrite c_str_app. Qed.



Lemma email_name_not_ledger path : is_email_name path → ¬ is_ledger path.
Proof.
  unfold spam_path, replicated_path.
  intros [[k ->]|[k ->]] [Heq|Heq];
    apply app_eq_ends_with in Heq; vm_compute in Heq; discriminate.
Qed.

Lemma email_name_not_source path :
  is_email_name path →
  path ≠ "data.txt" ∧ path ≠ "contacts.txt" ∧ path ≠ "connected_systems.txt".
Proof.
  unfold spam_path, replicated_path.
  intros [[k ->]|[k ->]]; repeat split;
    intros Heq%app_eq_ends_with; vm_compute in Heq; discriminate.
Qed.

(** The sinks of contacts without a NUL carry their suffix. *)
Lemma contact_sink_no_nul cs path :
  (∀ k, k ∈ cs → no_nul k) → is_contact_sink cs path → is_email_name path.
Proof.
  intros Hcs (k & Hk & [->| ->]).
  - left. exists k. by apply spam_file_no_nul, Hcs.
  - right. exists k. by apply replicated_file_no_nul, Hcs.
Qed.

Lemma payload_sink_not_ledger cs path :
  (∀ k, k ∈ cs → no_nul k) → is_payload_sink cs path → ¬ is_ledger path.
Proof.
  intros Hcs [->|Hp]; [by intros [?|?]|].
  by eapply email_name_not_ledger, contact_sink_no_nul.
Qed.

Lemma payload_sink_not_source cs path :
  (∀ k, k ∈ cs → no_nul k) → is_payload_sink cs path →
  path ≠ "data.txt" ∧ path ≠ "contacts.txt" ∧ path ≠ "connected_systems.txt".
Proof.
  intros Hcs [->|Hp]; [done|].
  by eapply email_name_not_source, contact_sink_no_nul.
Qed.

End path_facts.

(** ** Confinement of the output operations *)

Section confined_facts.

Lemma confined_refl P st : confined P st st.
Proof.
  split; [apply same_globals_refl|]. split; [apply files_agree_off_refl|].
  exists []. by rewrite app_nil_r.
Qed.

Lemma confined_trans P st1 st2 st3 :
  confined P st1 st2 → confined P st2 st3 → confined P st1 st3.
Proof.
  intros (Hg1 & Hf1 & evs1 & Ht1 & He1) (Hg2 & Hf2 & evs2 & Ht2 & He2).
  split; [by eapply same_globals_trans|]. split; [by eapply files_agree_off_trans|].
  exists (evs1 ++ evs2). rewrite Ht2, Ht1, (assoc_L (++)). split; [done|].
  by apply Forall_app.
Qed.

Lemma confined_mono (P Q : string → Prop) st st' :
  (∀ path, P path → Q path) → confined P st st' → confined Q st st'.
Proof.
  intros HPQ (Hg & Hf & evs & Ht & He). split; [done|].
  split; [by eapply files_agree_off_mono|]. exists evs. split; [done|].
  eapply Forall_impl; [done|]. intros [? [] ?|? ?]; simpl; auto.
Qed.

Lemma open_in_spec path :
  steps (open_in path) (λ st r st', r = files st !! path ∧ confined (λ _, False) st st').
Proof.
  intros st. eexists _, _. split; [done|]. split; [done|].
  split; [by repeat split|]. split; [done|].
  eexists [_]. split; [done|]. by repeat constructor.
Qed.

Lemma open_file_spec file mode :
  mode ≠ ModeIn →
  steps (open_file file mode) (λ st s st',
    os_path s = file ∧ os_good s = bool_decide (file ∉ denied st) ∧
    confined (λ p, p = file) st st' ∧
    trace st' = trace st ++ [EvOpen file mode (os_good s)] ∧
    (os_good s = true →
     files st' !! file =
       Some (match mode with ModeApp => default "" (files st !! file) | _ => "" end))).
Proof.
  intros Hmode st. unfold open_file. case_decide as Hden.
  - eexists _, _. split; [done|]. simpl. rewrite bool_decide_eq_false_2 by auto.
    repeat split; try done. eexists [_]. split; [done|].
    constructor; [|done]. by destruct mode.
  - eexists _, _. split; [done|]. simpl. rewrite bool_decide_eq_true_2 by done.
    repeat split; try done.
    + intros p ?. simpl. by rewrite lookup_insert_ne.
    + eexists [_]. split; [done|]. constructor; [|done]. by destruct mode.
    + intros _. by rewrite lookup_insert_eq.
Qed.

(** A stream constructed from a name is on the file the name is cut to. *)
Lemma open_out_spec path mode :
  mode ≠ ModeIn →
  steps (open_out path mode) (λ st s st',
    os_path s = c_str path ∧ os_good s = bool_decide (c_str path ∉ denied st) ∧
    confined (λ p, p = c_str path) st st' ∧
    trace st' = trace st ++ [EvOpen (c_str path) mode (os_good s)] ∧
    (os_good s = true →
     files st' !! c_str path =
       Some (match mode with ModeApp => default "" (files st !! c_str path) | _ => "" end))).
Proof. intros Hmode. unfold open_out. by apply open_file_spec. Qed.

Lemma put_spec s data :
  steps (put s data) (λ st _ st',
    confined (λ p, p = os_path s) st st' ∧
    trace st' = trace st ++ [EvWrite (os_path s) data] ∧
    (os_good s = true →
     files st' !! os_path s = Some (default "" (files st !! os_path s) +:+ data))).
Proof.
  intros st. unfold put. eexists _, _. split; [done|].
  destruct (os_good s); simpl; repeat split; try done.
  - intros p ?. simpl. by rewrite lookup_insert_ne.
  - eexists [_]. split; [done|]. by repeat constructor.
  - intros _. by rewrite lookup_insert_eq.
  - eexists [_]. split; [done|]. by repeat constructor.
Qed.

End confined_facts.

(** ** The payload *)

Section payload_facts.

Lemma steps_bind_confined {A B} (P : string → Prop) (Q : A → Prop)
    (m : M A) (k : A → M B) :
  steps m (λ st a st', Q a ∧ confined P st st') →
  (∀ a, Q a → steps (k a) (λ st _ st', confined P st st')) →
  steps (bind m k) (λ st _ st', confined P st st').
Proof.
  intros Hm Hk st. destruct (Hm st) as (a & st1 & Hrun & HQ & Hc1).
  destruct (Hk a HQ st1) as (b & st2 & Hrun' & Hc2).
  exists b, st2. unfold bind. rewrite Hrun. split; [done|]. by eapply confined_trans.
Qed.

Lemma for_each_confined {A} (P : string → Prop) (body : A → M unit) l :
  (∀ x, steps (body x) (λ st _ st', confined P st st')) →
  steps (for_each l body) (λ st _ st', confined P st st').
Proof.
  intros Hbody.
  apply (steps_for_each body (λ _, confined P) (λ _, confined P)); [|eauto|done].
  - apply confined_refl.
  - intros. by eapply confined_trans.
Qed.

Lemma files_kept_trans st1 st2 st3 :
  files_kept st1 st2 → files_kept st2 st3 → files_kept st1 st3.
Proof. intros H1 H2 path ?. by apply H2, H1. Qed.

Lemma write_file_spec file content :
  steps (write_file file content) (λ st _ st',
    confined (λ p, p = file) st st' ∧
    (file ∉ denied st → files st' !! file = Some content) ∧
    (∀ p, files st !! p = Some content → files st' !! p = Some content) ∧
    files_kept st st').
Proof.
  intros st. unfold write_file, bind, open_file. case_decide as Hden; simpl.
  - eexists _, _. split; [done|]. split; [|split; [done|split; [done|by intros ?]]].
    split; [by repeat split|]. split; [done|].
    eexists [_]. split; [done|]. by repeat constructor.
  - eexists _, _. split; [done|]. simpl. split; [|split; [|split]].
    + split; [by repeat split|]. split.
      * intros p ?. simpl. by rewrite !lookup_insert_ne.
      * eexists [_; _]. split; [simpl; by rewrite <- (assoc_L (++))|].
        by repeat constructor.
    + intros _. by rewrite !lookup_insert_eq.
    + intros p Hp. destruct (decide (p = file)) as [->|].
      * by rewrite !lookup_insert_eq.
      * by rewrite !lookup_insert_ne.
    + intros p Hp. simpl. destruct (decide (p = file)) as [->|].
      * by rewrite !lookup_insert_eq.
      * by rewrite !lookup_insert_ne.
Qed.

(** Writing one content to a file per contact: only the files of the listed
    contacts change, each of them that opens ends with the content, and no
    file is removed. *)
Lemma broadcast_spec (file_of : string → string) content l :
  steps (for_each l (λ contact, write_file (file_of contact) content)) (λ st _ st',
    confined (λ p, ∃ k, k ∈ l ∧ p = file_of k) st st' ∧
    (∀ k, k ∈ l → file_of k ∉ denied st → files st' !! file_of k = Some content) ∧
    (∀ p, files st !! p = Some content → files st' !! p = Some content) ∧
    files_kept st st').
Proof.
  apply (steps_for_each _
    (λ x st st',
       confined (λ p, p = file_of x) st st' ∧
       (file_of x ∉ denied st → files st' !! file_of x = Some content) ∧
       (∀ p, files st !! p = Some content → files st' !! p = Some content) ∧
       files_kept st st')
    (λ l st st',
       confined (λ p, ∃ k, k ∈ l ∧ p = file_of k) st st' ∧
       (∀ k, k ∈ l → file_of k ∉ denied st → files st' !! file_of k = Some content) ∧
       (∀ p, files st !! p = Some content → files st' !! p = Some content) ∧
       files_kept st st')).
  - intros st. split; [apply confined_refl|]. split; [by intros ? ?%elem_of_nil|].
    split; [done|by intros ?].
  - intros x l' st st1 st2 (Hc1 & Hx & Hk1 & Hkept1) (Hc2 & Hl & Hk2 & Hkept2).
    split; [|split; [|split; [by auto|by eapply files_kept_trans]]].
    + apply (confined_trans _ _ st1).
      * eapply confined_mono; [|done]. intros p ->. exists x. split; [left|done].
      * eapply confined_mono; [|done]. intros p (k & ? & ->). exists k.
        split; [by right|done].
    + assert (denied st1 = denied st) as Hden by apply Hc1.
      intros k [->|Hin]%elem_of_cons Hk; [by auto|].
      apply Hl; [done|]. by rewrite Hden.
  - intros x. apply write_file_spec.
Qed.

(** The stream operations of such a loop, and the files it leaves alone. *)
Lemma broadcast_frame (file_of : string → string) content l :
  steps (for_each l (λ contact, write_file (file_of contact) content)) (λ st _ st',
    denied st' = denied st ∧
    (∀ p, (∀ k, k ∈ l → p ≠ file_of k) → files st' !! p = files st !! p) ∧
    trace st' = trace st ++ (l ≫= λ k, write_events (denied st) (file_of k) content)).
Proof.
  apply (steps_for_each _
    (λ x st st',
       denied st' = denied st ∧
       (∀ p, p ≠ file_of x → files st' !! p = files st !! p) ∧
       trace st' = trace st ++ write_events (denied st) (file_of x) content)
    (λ l st st',
       denied st' = denied st ∧
       (∀ p, (∀ k, k ∈ l → p ≠ file_of k) → files st' !! p = files st !! p) ∧
       trace st' = trace st ++ (l ≫= λ k, write_events (denied st) (file_of k) content))).
  - intros st. split; [done|]. split; [done|]. by rewrite app_nil_r.
  - intros x l' st st1 st2 (Hd1 & Hf1 & Ht1) (Hd2 & Hf2 & Ht2).
    split; [congruence|]. split.
    + intros p Hp. rewrite Hf2, Hf1; [done| |].
      * apply Hp. left.
      * intros k Hk. apply Hp. by right.
    + rewrite Ht2, Ht1, Hd1, bind_cons. by rewrite (assoc_L (++)).
  - intros x st. unfold write_file, bind, open_file, write_events.
    case_decide as Hden; simpl.
    + eexists _, _. split; [done|]. simpl. rewrite bool_decide_eq_false_2 by auto.
      by repeat split.
    + eexists _, _. split; [done|]. simpl. rewrite bool_decide_eq_true_2 by done.
      split; [done|]. split; [|by rewrite <- (assoc_L (++))].
      intros p Hp. by rewrite !lookup_insert_ne.
Qed.

Lemma SendSpamEmails_spec :
  steps SendSpamEmails (λ st _ st',
    confined (λ p, ∃ k, k ∈ contacts st ∧ p = spam_file k) st st' ∧
    (∀ k, k ∈ contacts st → spam_file k ∉ denied st →
          files st' !! spam_file k = Some spam_email_content) ∧
    files_kept st st').
Proof.
  intros st. unfold SendSpamEmails, bind, gets.
  destruct (broadcast_spec spam_file spam_email_content (contacts st) st)
    as ([] & st' & Hrun & ? & ? & _ & ?).
  exists (), st'. split; [exact Hrun|done].
Qed.

Lemma ReplicatePrompt_spec email :
  steps (ReplicatePrompt email) (λ st _ st',
    confined (λ p, ∃ k, k ∈ contacts st ∧ p = replicated_file k) st st' ∧
    (∀ k, k ∈ contacts st → replicated_file k ∉ denied st →
          files st' !! replicated_file k = Some (email +:+ " replicated_prompt")) ∧
    files_kept st st').
Proof.
  intros st. unfold ReplicatePrompt, bind, gets.
  destruct (broadcast_spec replicated_file (email +:+ " replicated_prompt")
              (contacts st) st) as ([] & st' & Hrun & ? & ? & _ & ?).
  exists (), st'. split; [exact Hrun|done].
Qed.

Lemma StealData_confined :
  steps StealData (λ st _ st', confined (λ p, p = "stolen_data.txt") st st').
Proof.
  unfold StealData.
  apply (steps_bind_confined _ (λ _, True)).
  { eapply steps_weaken; [apply open_in_spec|]. intros st r st' [_ Hc].
    split; [done|]. eapply confined_mono; [|done]. done. }
  intros data_stream _.
  apply (steps_bind_confined _ (λ s, os_path s = "stolen_data.txt")).
  { eapply steps_weaken; [by apply (open_file_spec "stolen_data.txt")|].
    by intros st s st' (? & _ & ? & _). }
  intros s Hs. destruct (_ && _).
  - apply for_each_confined. intros data.
    eapply steps_weaken; [apply put_spec|]. intros st [] st' [Hc _].
    by rewrite Hs in Hc.
  - apply steps_ret, confined_refl.
Qed.


(** The copy loop of [StealData] on an open sink. *)
Lemma copy_loop_files (s : ofstream) (ls : list string) (st : state) (old : string) :
  os_good s = true → files st !! os_path s = Some old →
  ∃ st', for_each ls (λ data, put s (data +:+ endl)) st = Ok (tt, st') ∧
         same_globals st st' ∧
         files st' = <[os_path s := old +:+ unlines ls]> (files st).
Proof.
  intros Hgood. revert st old. induction ls as [|l ls IH]; intros st old Hold.
  - exists st. split; [done|]. split; [apply same_globals_refl|].
    simpl. by rewrite str_app_nil_r, insert_id.
  - simpl. unfold bind.
    assert (put s (l +:+ endl) st =
            Ok (tt, log_event (EvWrite (os_path s) (l +:+ endl))
                      (set_files (<[os_path s := old +:+ l +:+ endl]> (files st)) st)))
      as -> by (unfold put; by rewrite Hgood, Hold).
    edestruct IH as (st' & Hrun & Hg & Hf); [|rewrite Hrun].
    { simpl. apply lookup_insert_eq. }
    exists st'. split; [done|]. split; [apply Hg|].
    rewrite Hf. simpl. rewrite insert_insert_eq. by rewrite <- !str_app_assoc.
Qed.

Lemma StealData_files st :
  ∃ st', StealData st = Ok (tt, st') ∧ same_globals st st' ∧
    files st' =
      if decide ("stolen_data.txt" ∈ denied st) then files st
      else <["stolen_data.txt" := captured (files st !! "data.txt")]> (files st).
Proof.
  unfold StealData, bind, open_in, open_out, open_file. simpl.
  case_decide as Hden; simpl.
  - rewrite andb_false_r. by eexists.
  - rewrite andb_true_r. destruct (files st !! "data.txt") as [buf|] eqn:Hdata; simpl.
    + edestruct (copy_loop_files (Ofstream "stolen_data.txt" true) (read_lines buf))
        as (st' & Hrun & Hg & Hf); [done| |rewrite Hrun].
      { simpl. apply lookup_insert_eq. }
      exists st'. split; [done|]. split; [apply Hg|].
      rewrite Hf. simpl. by rewrite insert_insert_eq.
    + by eexists.
Qed.

Lemma copy_loop_trace (s : ofstream) (ls : list string) (st : state) :
  ∃ st', for_each ls (λ data, put s (data +:+ endl)) st = Ok (tt, st') ∧
         trace st' = trace st ++ ((λ l, EvWrite (os_path s) (l +:+ endl)) <$> ls).
Proof.
  revert st. induction ls as [|l ls IH]; intros st.
  - exists st. split; [done|]. by rewrite app_nil_r.
  - simpl. unfold bind.
    destruct (put_spec s (l +:+ endl) st) as ([] & st1 & Hrun1 & _ & Ht1 & _).
    rewrite Hrun1. destruct (IH st1) as (st' & Hrun & Ht). exists st'.
    split; [done|]. rewrite Ht, Ht1. by rewrite <- (assoc_L (++)).
Qed.

Lemma StealData_trace st :
  ∃ st', StealData st = Ok (tt, st') ∧
         trace st' = trace st ++ steal_events (files st) (denied st).
Proof.
  unfold StealData, bind, open_in, open_out, open_file, steal_events. simpl.
  case_decide as Hden; simpl.
  - rewrite andb_false_r. eexists. split; [done|]. simpl.
    rewrite (bool_decide_eq_false_2 ("stolen_data.txt" ∉ denied st)) by auto.
    by rewrite <- (assoc_L (++)).
  - rewrite andb_true_r, (bool_decide_eq_true_2 _ Hden).
    destruct (files st !! "data.txt") as [buf|] eqn:Hdata; simpl.
    + edestruct (copy_loop_trace (Ofstream "stolen_data.txt" true) (read_lines buf))
        as (st' & Hrun & Ht). rewrite Hrun.
      exists st'. split; [done|]. rewrite Ht. simpl. by rewrite <- !(assoc_L (++)).
    + eexists. split; [done|]. simpl. by rewrite <- (assoc_L (++)).
Qed.

(** One run of the payload: it changes no file but the captured-data file
    and the sinks of the contacts; it fills the sinks; a captured-data file
    that opens exists afterwards, and holds the lines of the source when no
    sink of a contact is that file. *)
Lemma ProcessAdversarialPrompt_spec email :
  steps (ProcessAdversarialPrompt email) (λ st _ st',
    confined (is_payload_sink (contacts st)) st st' ∧
    payload_delivered email st st' ∧
    ("stolen_data.txt" ∉ denied st → is_Some (files st' !! "stolen_data.txt")) ∧
    ("stolen_data.txt" ∉ denied st →
     ¬ is_contact_sink (contacts st) "stolen_data.txt" →
     files st' !! "stolen_data.txt" = Some (captured (files st !! "data.txt")))).
Proof.
  intros st. unfold ProcessAdversarialPrompt, bind.
  destruct (StealData_files st) as (st1 & Hrun1 & _ & Hfiles1).
  pose proof (steps_elim _ _ _ _ _ StealData_confined Hrun1) as Hc1.
  destruct (SendSpamEmails_spec st1) as ([] & st2 & Hrun2 & Hc2 & Hspam & Hkept2).
  destruct (ReplicatePrompt_spec email st2) as ([] & st3 & Hrun3 & Hc3 & Hrep & Hkept3).
  rewrite Hrun1, Hrun2, Hrun3. exists (), st3. split; [done|].
  pose proof Hc1 as ((Hcs1 & _ & _ & Hd1) & Hf1 & _).
  pose proof Hc2 as ((Hcs2 & _ & _ & Hd2) & Hf2 & _).
  pose proof Hc3 as (_ & Hf3 & _).
  rewrite Hcs2, Hcs1 in *.
  assert ("stolen_data.txt" ∉ denied st →
          files st1 !! "stolen_data.txt" = Some (captured (files st !! "data.txt")))
    as Hcaptured.
  { intros Hden. rewrite Hfiles1, decide_False by done. apply lookup_insert_eq. }
  split; [|split; [|split]].
  - apply (confined_trans _ _ st1); [|apply (confined_trans _ _ st2)].
    + by apply (confined_mono (λ p, p = "stolen_data.txt")); [by left|].
    + eapply confined_mono; [|done]. intros p (k & ? & ->). right. exists k. auto.
    + eapply confined_mono; [|done]. intros p (k & ? & ->). right. exists k. auto.
  - intros k Hk. split; intros Hden.
    + apply Hrep; congruence.
    + intros Hfree. rewrite Hf3 by (intros (k' & ? & ?); by eapply Hfree).
      apply Hspam; congruence.
  - intros Hden. apply Hkept3, Hkept2. rewrite Hcaptured by done. done.
  - intros Hden Hfree.
    rewrite Hf3 by (intros (k' & ? & ?); apply Hfree; exists k'; auto).
    rewrite Hf2 by (intros (k' & ? & ?); apply Hfree; exists k'; auto). auto.
Qed.

Lemma ProcessAdversarialPrompt_trace email st :
  ∃ st', ProcessAdversarialPrompt email st = Ok (tt, st') ∧
         trace st' = trace st ++ payload_events email st.
Proof.
  unfold ProcessAdversarialPrompt, bind, payload_events.
  destruct (StealData_trace st) as (st1 & Hrun1 & Ht1).
  pose proof (steps_elim _ _ _ _ _ StealData_confined Hrun1) as ((Hcs1 & _ & _ & Hd1) & _).
  rewrite Hrun1.
  destruct (broadcast_frame spam_file spam_email_content (contacts st1) st1)
    as ([] & st2 & Hrun2 & Hd2 & _ & Ht2).
  assert (SendSpamEmails st1 = Ok (tt, st2)) as -> by exact Hrun2.
  pose proof (steps_elim _ _ _ _ _ SendSpamEmails_spec Hrun2) as (((Hcs2 & _) & _) & _).
  destruct (broadcast_frame replicated_file (email +:+ " replicated_prompt")
              (contacts st2) st2) as ([] & st3 & Hrun3 & _ & _ & Ht3).
  exists st3. split; [exact Hrun3|].
  rewrite Ht3, Ht2, Ht1, Hd2, Hd1, Hcs2, Hcs1. by rewrite <- !(assoc_L (++)).
Qed.


Lemma write_events_payload locked file content :
  (content = spam_email_content ∨ ∃ email, content = email +:+ " replicated_prompt") →
  Forall payload_write (write_events locked file content).
Proof.
  intros Hcontent. unfold write_events. constructor; [done|].
  case_decide; constructor; [|done]. simpl. by right.
Qed.

(** What a run of the payload inserts is a line for the captured-data file,
    the placeholder or the replicated message. *)
Lemma payload_events_writes email st : Forall payload_write (payload_events email st).
Proof.
  unfold payload_events, steal_events. repeat apply Forall_app_2.
  - by repeat constructor.
  - case_decide; [done|]. apply Forall_fmap, Forall_forall. intros l _. simpl. by left.
  - apply Forall_bind, Forall_forall. intros k _. apply write_events_payload. by left.
  - apply Forall_bind, Forall_forall. intros k _. apply write_events_payload.
    right. by exists email.
Qed.

(** The first loop of [Run] is the payload run once per triggering
    contact, in order. *)
Lemma Scan_per_trigger st :
  Scan st = for_each (filter is_trigger (contacts st)) ProcessAdversarialPrompt st.
Proof.
  unfold Scan, bind, gets. generalize (contacts st) as cs. intros cs. revert st.
  induction cs as [|c cs IH]; intros st; [done|].
  simpl for_each. unfold bind. destruct (IsAdversarialPrompt c) eqn:Hc.
  - rewrite filter_cons_True by done. simpl for_each. unfold bind.
    destruct (ProcessAdversarialPrompt c st) as [[[] st']|]; [apply IH|done].
  - rewrite filter_cons_False by (unfold is_trigger; congruence). apply IH.
Qed.

Lemma data_kept_confined cs st st' :
  ¬ is_contact_sink cs "data.txt" → confined (is_payload_sink cs) st st' →
  files st' !! "data.txt" = files st !! "data.txt" ∧ denied st' = denied st.
Proof.
  intros Hfree (Hg & Hf & _). split; [|apply Hg]. apply Hf. by intros [?|?].
Qed.

(** The body of the first loop of [Run] over any list of messages, with the
    contacts [cs] loaded. *)
Lemma payload_runs_spec cs l :
  steps (for_each l (λ email,
           if IsAdversarialPrompt email then ProcessAdversarialPrompt email else ret tt))
    (λ st _ st',
       contacts st = cs →
       confined (is_payload_sink cs) st st' ∧
       (∃ evs, trace st' = trace st ++ evs ∧ Forall payload_write evs) ∧
       ("stolen_data.txt" ∉ denied st →
        ((∃ c, c ∈ l ∧ is_trigger c) → is_Some (files st' !! "stolen_data.txt")) ∧
        (is_Some (files st !! "stolen_data.txt") →
         is_Some (files st' !! "stolen_data.txt"))) ∧
       ("stolen_data.txt" ∉ denied st →
        ¬ is_contact_sink cs "data.txt" → ¬ is_contact_sink cs "stolen_data.txt" →
        ((∃ c, c ∈ l ∧ is_trigger c) →
         files st' !! "stolen_data.txt" = Some (captured (files st !! "data.txt"))) ∧
        (files st !! "stolen_data.txt" = Some (captured (files st !! "data.txt")) →
         files st' !! "stolen_data.txt" = Some (captured (files st !! "data.txt"))))).
Proof.
  pose (Rb := λ (c : string) (st st' : state),
    contacts st = cs →
    confined (is_payload_sink cs) st st' ∧
    (∃ evs, trace st' = trace st ++ evs ∧ Forall payload_write evs) ∧
    ("stolen_data.txt" ∉ denied st →
     (is_trigger c → is_Some (files st' !! "stolen_data.txt")) ∧
     (is_Some (files st !! "stolen_data.txt") →
      is_Some (files st' !! "stolen_data.txt"))) ∧
    ("stolen_data.txt" ∉ denied st →
     ¬ is_contact_sink cs "data.txt" → ¬ is_contact_sink cs "stolen_data.txt" →
     (is_trigger c →
      files st' !! "stolen_data.txt" = Some (captured (files st !! "data.txt"))) ∧
     (files st !! "stolen_data.txt" = Some (captured (files st !! "data.txt")) →
      files st' !! "stolen_data.txt" = Some (captured (files st !! "data.txt"))))).
  apply (steps_for_each _ Rb
    (λ (l : list string) (st st' : state),
       contacts st = cs →
       confined (is_payload_sink cs) st st' ∧
       (∃ evs, trace st' = trace st ++ evs ∧ Forall payload_write evs) ∧
       ("stolen_data.txt" ∉ denied st →
        ((∃ c, c ∈ l ∧ is_trigger c) → is_Some (files st' !! "stolen_data.txt")) ∧
        (is_Some (files st !! "stolen_data.txt") →
         is_Some (files st' !! "stolen_data.txt"))) ∧
       ("stolen_data.txt" ∉ denied st →
        ¬ is_contact_sink cs "data.txt" → ¬ is_contact_sink cs "stolen_data.txt" →
        ((∃ c, c ∈ l ∧ is_trigger c) →
         files st' !! "stolen_data.txt" = Some (captured (files st !! "data.txt"))) ∧
        (files st !! "stolen_data.txt" = Some (captured (files st !! "data.txt")) →
         files st' !! "stolen_data.txt" = Some (captured (files st !! "data.txt")))))).
  - intros st0 _. split; [apply confined_refl|]. split; [|split].
    + exists []. by rewrite app_nil_r.
    + intros _. split; [|done]. by intros (? & ?%elem_of_nil & _).
    + intros _ _ _. split; [|done]. by intros (? & ?%elem_of_nil & _).
  - intros c l' st0 st1 st2 H1 H2 Hcs.
    destruct (H1 Hcs) as (Hc1 & (evs1 & Ht1 & He1) & Hs1 & Hb1).
    assert (contacts st1 = cs) as Hcs1 by (rewrite <- Hcs; apply Hc1).
    assert (denied st1 = denied st0) as Hd1 by apply Hc1.
    destruct (H2 Hcs1) as (Hc2 & (evs2 & Ht2 & He2) & Hs2 & Hb2).
    split; [by eapply confined_trans|]. split; [|split].
    + exists (evs1 ++ evs2). rewrite Ht2, Ht1, (assoc_L (++)). split; [done|].
      by apply Forall_app.
    + intros Hden. destruct (Hs1 Hden) as [Htrig Hkeep].
      destruct Hs2 as [Hex Hkeep']; [by rewrite Hd1|]. split; [|by auto].
      intros (c' & [->|Hin]%elem_of_cons & Hc'); [by auto|]. apply Hex. eauto.
    + intros Hden Hdata Hsink.
      destruct (data_kept_confined _ _ _ Hdata Hc1) as [Hsame _].
      destruct (Hb1 Hden Hdata Hsink) as [Htrig Hkeep].
      destruct Hb2 as [Hex Hkeep']; [by rewrite Hd1|done..|].
      rewrite Hsame in Hex, Hkeep'. split; [|by auto].
      intros (c' & [->|Hin]%elem_of_cons & Hc'); [by auto|]. apply Hex. eauto.
  - intros c. unfold Rb, is_trigger. destruct (IsAdversarialPrompt c).
    + intros st0.
      destruct (ProcessAdversarialPrompt_spec c st0)
        as ([] & st1 & Hrun & Hc & _ & Hsome & Hcap).
      exists (), st1. split; [done|]. intros <-. split; [done|]. split; [|split].
      * destruct (ProcessAdversarialPrompt_trace c st0) as (st1' & Hrun' & Ht).
        assert (st1' = st1) as -> by congruence.
        eexists. split; [done|]. apply payload_events_writes.
      * intros Hden. split; auto.
      * intros Hden _ Hsink. split; auto.
    + apply steps_ret. intros st0 _. split; [apply confined_refl|]. split; [|split].
      * exists []. by rewrite app_nil_r.
      * intros _. split; [intros [=]|done].
      * intros _ _ _. split; [intros [=]|done].
Qed.

(** The first loop of [Run]: it changes no file but the captured-data file
    and the sinks of the contacts, and what it inserts is what the payload
    inserts; when some contact triggers, a captured-data file that opens
    exists afterwards, and it holds the lines of the source when no sink of a
    contact is the source or that file. *)
Lemma Scan_spec :
  steps Scan (λ st _ st',
    confined (is_payload_sink (contacts st)) st st' ∧
    (∃ evs, trace st' = trace st ++ evs ∧ Forall payload_write evs ∧
            Forall (event_within (is_payload_sink (contacts st))) evs) ∧
    ("stolen_data.txt" ∉ denied st → (∃ c, c ∈ contacts st ∧ is_trigger c) →
     is_Some (files st' !! "stolen_data.txt")) ∧
    ("stolen_data.txt" ∉ denied st →
     ¬ is_contact_sink (contacts st) "data.txt" →
     ¬ is_contact_sink (contacts st) "stolen_data.txt" →
     (∃ c, c ∈ contacts st ∧ is_trigger c) →
     files st' !! "stolen_data.txt" = Some (captured (files st !! "data.txt")))).
Proof.
  intros st. unfold Scan, bind, gets.
  destruct (payload_runs_spec (contacts st) (contacts st) st)
    as ([] & st' & Hrun & Hspec).
  destruct (Hspec eq_refl) as (Hc & (evs & Ht & He) & Hsome & Hcap).
  exists (), st'. split; [done|]. split; [done|]. split; [|split].
  - exists evs. split; [done|]. split; [done|].
    destruct Hc as (_ & _ & evs' & Ht' & He'). rewrite Ht in Ht'.
    by apply app_inv_head in Ht' as ->.
  - intros Hden Hex. destruct (Hsome Hden) as [Hfin _]. by apply Hfin.
  - intros Hden Hdata Hsink Hex. destruct (Hcap Hden Hdata Hsink) as [Hfin _].
    by apply Hfin.
Qed.

End payload_facts.

(** ** Propagation *)

Section propagate_facts.

Lemma list_bind_bind {A B C} (g : A → list B) (f : B → list C) (l : list A) :
  (l ≫= g) ≫= f = l ≫= λ x, g x ≫= f.
Proof.
  induction l as [|x l IH]; [done|]. by rewrite !bind_cons, bind_app, IH.
Qed.

Lemma edges_bind_nested {X} (f : string → string → list X) (m : gmap string (gset string)) :
  edges_in_order m ≫= (λ e, f e.1 e.2) =
  in_order (dom m) ≫= λ host, in_order (default ∅ (m !! host)) ≫= λ system, f host system.
Proof.
  unfold edges_in_order. rewrite list_bind_bind.
  apply list_bind_ext; [|done]. intros host. rewrite list_bind_bind.
  apply list_bind_ext; [|done]. intros system. by rewrite bind_singleton.
Qed.

Lemma appended_app old ls1 ls2 : appended old (ls1 ++ ls2) = appended (appended old ls1) ls2.
Proof. apply foldl_app. Qed.

Lemma logged_nil st : logged [] [] [] st st.
Proof. split; [apply confined_refl|]. split; [by rewrite app_nil_r|]. by split. Qed.

Lemma logged_trans evs1 tls1 ils1 evs2 tls2 ils2 st1 st2 st3 :
  logged evs1 tls1 ils1 st1 st2 → logged evs2 tls2 ils2 st2 st3 →
  logged (evs1 ++ evs2) (tls1 ++ tls2) (ils1 ++ ils2) st1 st3.
Proof.
  intros (Hc1 & Ht1 & Hgt1 & Hgi1) (Hc2 & Ht2 & Hgt2 & Hgi2).
  assert (denied st2 = denied st1) as Hden by apply Hc1. rewrite Hden in *.
  split; [by eapply confined_trans|]. split; [by rewrite Ht2, Ht1, (assoc_L (++))|].
  split; intros Hopen; rewrite appended_app.
  - by rewrite Hgt2, Hgt1.
  - by rewrite Hgi2, Hgi1.
Qed.

(** One ledger call: open for append, insert the line. *)
Lemma append_line_spec path line :
  steps (bind (open_file path ModeApp) (λ s, put s line)) (λ st _ st',
    confined (λ p, p = path) st st' ∧
    trace st' = trace st ++
      [EvOpen path ModeApp (bool_decide (path ∉ denied st)); EvWrite path line] ∧
    (path ∉ denied st → files st' !! path = appended (files st !! path) [line])).
Proof.
  intros st.
  destruct (open_file_spec path ModeApp) with (st := st)
    as (s & st1 & Hrun1 & Hp & Hgood & Hc1 & Ht1 & Hf1); [done|].
  destruct (put_spec s line st1) as ([] & st2 & Hrun2 & Hc2 & Ht2 & Hf2).
  exists (), st2. unfold bind. rewrite Hrun1. split; [done|].
  rewrite Hp in *. split; [by eapply confined_trans|].
  split; [by rewrite Ht2, Ht1, Hgood, <- (assoc_L (++))|].
  intros Hopen. rewrite Hgood, bool_decide_eq_true_2 in Hf1, Hf2 by done.
  rewrite Hf2, Hf1 by done. done.
Qed.

Lemma SendPrompt_spec host system :
  steps (SendPrompt host system) (λ st _ st',
    logged (prompt_events (denied st) host system)
           [transmission_line host system] [infection_line host system] st st').
Proof.
  intros st. unfold SendPrompt, LogTransmission, LogInfection, open_out.
  change (c_str "transmission_log.txt") with "transmission_log.txt".
  change (c_str "infection_log.txt") with "infection_log.txt".
  destruct (append_line_spec "transmission_log.txt" (transmission_line host system) st)
    as ([] & st1 & Hrun1 & Hc1 & Ht1 & Hf1).
  destruct (append_line_spec "infection_log.txt" (infection_line host system) st1)
    as ([] & st2 & Hrun2 & Hc2 & Ht2 & Hf2).
  exists (), st2. unfold bind at 1. unfold transmission_line in Hrun1. rewrite Hrun1.
  split; [exact Hrun2|].
  assert (denied st1 = denied st) as Hden by apply Hc1.
  pose proof Hc1 as (_ & Hagree1 & _). pose proof Hc2 as (_ & Hagree2 & _).
  split; [|split; [|split]].
  - apply (confined_trans _ _ st1).
    + eapply confined_mono; [|done]. intros p ->. by left.
    + eapply confined_mono; [|done]. intros p ->. by right.
  - rewrite Ht2, Ht1, Hden. by rewrite <- (assoc_L (++)).
  - intros Hopen. rewrite Hagree2 by done. by apply Hf1.
  - intros Hopen. rewrite Hf2 by (by rewrite Hden). by rewrite Hagree1.
Qed.

Lemma for_each_logged {A} (body : A → M unit) (ev : gset string → A → list event)
    (tl il : A → list string) :
  (∀ x, steps (body x) (λ st _ st', logged (ev (denied st) x) (tl x) (il x) st st')) →
  ∀ l, steps (for_each l body)
         (λ st _ st', logged (l ≫= ev (denied st)) (l ≫= tl) (l ≫= il) st st').
Proof.
  intros Hbody. apply (steps_for_each body
    (λ x st st', logged (ev (denied st) x) (tl x) (il x) st st')
    (λ l st st', logged (l ≫= ev (denied st)) (l ≫= tl) (l ≫= il) st st')).
  - intros st. apply logged_nil.
  - intros x l st st1 st2 H1 H2.
    assert (denied st1 = denied st) as Hden by apply H1. rewrite Hden in H2.
    rewrite !bind_cons. by eapply logged_trans.
  - done.
Qed.

Lemma Propagate_spec :
  steps Propagate (λ st _ st',
    logged (propagate_events (denied st) (connected_systems st))
           (ledger_lines transmission_line (connected_systems st))
           (ledger_lines infection_line (connected_systems st)) st st').
Proof.
  intros st. unfold Propagate, bind, gets, propagate_events, ledger_lines.
  rewrite (edges_bind_nested (prompt_events (denied st))),
    (edges_bind_nested (λ host system, [transmission_line host system])),
    (edges_bind_nested (λ host system, [infection_line host system])).
  set (m := connected_systems st).
  destruct (for_each_logged
    (λ host, for_each (in_order (default ∅ (m !! host))) (λ system, SendPrompt host system))
    (λ locked host, in_order (default ∅ (m !! host)) ≫= λ system,
       prompt_events locked host system)
    (λ host, in_order (default ∅ (m !! host)) ≫= λ system, [transmission_line host system])
    (λ host, in_order (default ∅ (m !! host)) ≫= λ system, [infection_line host system]))
    with (l := in_order (dom m)) (st := st) as ([] & st' & Hrun & Hres).
  - intros host.
    apply (for_each_logged (λ system, SendPrompt host system)
      (λ locked system, prompt_events locked host system)
      (λ system, [transmission_line host system])
      (λ system, [infection_line host system])).
    intros system. apply SendPrompt_spec.
  - exists (), st'. split; [exact Hrun|exact Hres].
Qed.

End propagate_facts.

(** ** The whole run *)

Section run_facts.

Lemma Run_phases st :
  ∃ st1 st2 st3,
    Initialize st = Ok (tt, st1) ∧ Scan st1 = Ok (tt, st2) ∧
    Propagate st2 = Ok (tt, st3) ∧ Run st = Ok (tt, st3) ∧ main st = Ok (0, st3).
Proof.
  destruct (Initialize_spec st) as ([] & st1 & Hrun1 & _).
  destruct (Scan_spec st1) as ([] & st2 & Hrun2 & _).
  destruct (Propagate_spec st2) as ([] & st3 & Hrun3 & _).
  exists st1, st2, st3. unfold main, Run, bind. by rewrite Hrun1, Hrun2, Hrun3.
Qed.


Lemma main_keeps_infected_systems st :
  ∃ st', main st = Ok (0, st') ∧ infected_systems st' = infected_systems st.
Proof.
  destruct (Run_phases st) as (st1 & st2 & st3 & Hrun1 & Hrun2 & Hrun3 & _ & Hmain).
  exists st3. split; [done|].
  pose proof (steps_elim _ _ _ _ _ Initialize_spec Hrun1) as (_ & Hi1 & _).
  pose proof (steps_elim _ _ _ _ _ Scan_spec Hrun2) as (((_ & _ & Hi2 & _) & _) & _).
  pose proof (steps_elim _ _ _ _ _ Propagate_spec Hrun3) as (((_ & _ & Hi3 & _) & _) & _).
  congruence.
Qed.

Lemma run_keeps_topology st :
  ∃ st1 st2 st3,
    Initialize st = Ok (tt, st1) ∧ Scan st1 = Ok (tt, st2) ∧
    Propagate st2 = Ok (tt, st3) ∧ main st = Ok (0, st3) ∧
    connected_systems st2 = connected_systems st1 ∧
    connected_systems st3 = connected_systems st1.
Proof.
  destruct (Run_phases st) as (st1 & st2 & st3 & Hrun1 & Hrun2 & Hrun3 & _ & Hmain).
  exists st1, st2, st3. repeat (split; [done|]).
  pose proof (steps_elim _ _ _ _ _ Scan_spec Hrun2) as (((_ & Hm2 & _) & _) & _).
  pose proof (steps_elim _ _ _ _ _ Propagate_spec Hrun3) as (((_ & Hm3 & _) & _) & _).
  split; congruence.
Qed.

End run_facts.

(** ** The frame of the later phases *)

(** C9: from any state, Init, Scan and Propagate all return, and the contact
    sequence and the topology map after Scan and after Propagate (the end of
    the run) are those Init produced. *)
Theorem contacts_and_topology_fixed_after_Initialize (st : state) :
  ∃ st1 st2 st3,
    Initialize st = Ok (tt, st1) ∧ Scan st1 = Ok (tt, st2) ∧
    Propagate st2 = Ok (tt, st3) ∧ main st = Ok (0, st3) ∧
    contacts st2 = contacts st1 ∧ connected_systems st2 = connected_systems st1 ∧
    contacts st3 = contacts st1 ∧ connected_systems st3 = connected_systems st1.
Proof.
  destruct (Run_phases st) as (st1 & st2 & st3 & Hrun1 & Hrun2 & Hrun3 & _ & Hmain).
  exists st1, st2, st3. repeat (split; [done|]).
  pose proof (steps_elim _ _ _ _ _ Scan_spec Hrun2) as (((Hc2 & Hm2 & _) & _) & _).
  pose proof (steps_elim _ _ _ _ _ Propagate_spec Hrun3) as (((Hc3 & Hm3 & _) & _) & _).
  repeat split; congruence.
Qed.

(** C8: in a run from the empty globals, every host that is a key of the
    topology map has a non-empty neighbor set, right after the build and at
    every later point of the run. *)
Theorem topology_keys_have_neighbors (fs : gmap string string) (locked : gset string) :
  ∃ st1 st2 st3,
    Initialize (initial_state fs locked) = Ok (tt, st1) ∧ Scan st1 = Ok (tt, st2) ∧
    Propagate st2 = Ok (tt, st3) ∧ main (initial_state fs locked) = Ok (0, st3) ∧
    (∀ host s, connected_systems st1 !! host = Some s → s ≠ ∅) ∧
    (∀ host s, connected_systems st2 !! host = Some s → s ≠ ∅) ∧
    (∀ host s, connected_systems st3 !! host = Some s → s ≠ ∅).
Proof.
  destruct (run_keeps_topology (initial_state fs locked))
    as (st1 & st2 & st3 & Hrun1 & Hrun2 & Hrun3 & Hmain & Hm2 & Hm3).
  exists st1, st2, st3. repeat (split; [done|]).
  pose proof (steps_elim _ _ _ _ _ Initialize_spec Hrun1) as (_ & _ & _ & _ & Hm1 & _).
  assert (sets_nonempty (connected_systems st1)) as Hne.
  { rewrite Hm1. apply build_from_nonempty. intros host s. simpl. by rewrite lookup_empty. }
  rewrite Hm2, Hm3. done.
Qed.

(** ** Completion *)

Lemma source_empty_getlines fs path : source_empty fs path → getlines (fs !! path) = [].
Proof. by intros [-> | ->]. Qed.

(** C5: whatever files exist and whatever paths cannot be opened, the run
    goes through Init, Scan and Propagate without an exception and [main]
    returns 0; and when the contacts and the topology sources are missing or
    empty, it ends with no contacts, an empty topology, no stream written to
    and the file system as it found it. *)
Theorem run_always_exits_zero (fs : gmap string string) (locked : gset string) :
  (∃ st1 st2 st3,
     Initialize (initial_state fs locked) = Ok (tt, st1) ∧ Scan st1 = Ok (tt, st2) ∧
     Propagate st2 = Ok (tt, st3) ∧ main (initial_state fs locked) = Ok (0, st3)) ∧
  (source_empty fs "contacts.txt" → source_empty fs "connected_systems.txt" →
   ∃ st', main (initial_state fs locked) = Ok (0, st') ∧
     contacts st' = [] ∧ connected_systems st' = ∅ ∧ files st' = fs ∧
     trace st' =
       [EvOpen "contacts.txt" ModeIn (bool_decide (is_Some (fs !! "contacts.txt")));
        EvOpen "connected_systems.txt" ModeIn
          (bool_decide (is_Some (fs !! "connected_systems.txt")))]).
Proof.
  split.
  - destruct (Run_phases (initial_state fs locked))
      as (st1 & st2 & st3 & ? & ? & ? & _ & ?). by exists st1, st2, st3.
  - intros Hc%source_empty_getlines Hs%source_empty_getlines.
    destruct (Run_phases (initial_state fs locked))
      as (st1 & st2 & st3 & Hrun1 & Hrun2 & Hrun3 & _ & Hmain).
    exists st3. split; [done|].
    pose proof (steps_elim _ _ _ _ _ Initialize_spec Hrun1)
      as (Hcs1 & _ & _ & Hf1 & Hm1 & Ht1).
    simpl in Hcs1, Hf1, Hm1, Ht1. rewrite Hc in Hcs1. rewrite Hs in Hm1. simpl in Hm1.
    assert (st2 = st1) as ->.
    { rewrite Scan_per_trigger, Hcs1 in Hrun2. by injection Hrun2. }
    assert (st3 = st1) as ->.
    { unfold Propagate, bind, gets in Hrun3. rewrite Hm1 in Hrun3.
      by injection Hrun3. }
    done.
Qed.

(** ** The capture step without its source *)



(** ** The broadcast of the payload *)


(** The scenario of three contacts of which the first triggers: one payload
    run, and the sinks of all three are written. *)
Example broadcast_scenario :
  ∃ st', main (initial_state demo_broadcast ∅) = Ok (0, st') ∧
    filter is_trigger (contacts st') = ["x_adversarial_keyword"] ∧
    files st' !! "x_adversarial_keyword_spam_email.txt" = Some "This is a spam email." ∧
    files st' !! "y_spam_email.txt" = Some "This is a spam email." ∧
    files st' !! "z_spam_email.txt" = Some "This is a spam email." ∧
    files st' !! "y_replicated_email.txt"
      = Some "x_adversarial_keyword replicated_prompt" ∧
    files st' !! "z_replicated_email.txt"
      = Some "x_adversarial_keyword replicated_prompt".
Proof.
  destruct (Run_phases (initial_state demo_broadcast ∅)) as (? & ? & st' & _ & _ & _ & _ & Hmain).
  exists st'. split; [done|]. vm_compute in Hmain. injection Hmain as <-.
  repeat split; vm_compute; reflexivity.
Qed.

(** ** The infected set *)

(** C1 does not hold of the code: in the run over the single edge from [A]
    to [B] the infection of [B] is logged, but [infected_systems], declared
    to keep track of the infected systems, is never written and ends
    empty. *)
Theorem infected_systems_never_marked :
  ∃ st', main (initial_state demo_one_edge ∅) = Ok (0, st') ∧
    "B" ∈ neighbors_of (connected_systems st') "A" ∧
    files st' !! "infection_log.txt" = Some ("A infected B" +:+ endl) ∧
    infected_systems st' = ∅ ∧
    "B" ∉ infected_systems st'.
Proof.
  destruct (main_keeps_infected_systems (initial_state demo_one_edge ∅))
    as (st' & Hrun & Hinf).
  exists st'. split; [done|].
  assert (main (initial_state demo_one_edge ∅) = Ok (0, st')) as Hrun' by done.
  vm_compute in Hrun'. injection Hrun' as <-.
  split; [|split; [|split]].
  - rewrite <- elem_of_elements. vm_compute. left.
  - vm_compute. reflexivity.
  - reflexivity.
  - cbn [infected_systems]. apply not_elem_of_empty.
Qed.

(** ** The ledgers *)

Section ledger_facts.
Implicit Types h t r : string.

Lemma str_app_inv_tail s s' u : s +:+ u = s' +:+ u → s = s'.
Proof.
  intros Heq.
  assert (String.length s = String.length s') as Hlen.
  { apply (f_equal String.length) in Heq. rewrite !str_length_app in Heq. lia. }
  rewrite <- (str_take_app_length s u), Heq, Hlen. apply str_take_app_length.
Qed.

Lemma split_at_space_unique h h' r r' :
  ¬ contains h " " → ¬ contains h' " " →
  h +:+ " " +:+ r = h' +:+ " " +:+ r' → h = h' ∧ r = r'.
Proof.
  intros Hh Hh' Heq.
  assert (String.length h = String.length h') as Hlen.
  { pose proof (first_occ_space_app h r Hh) as H1.
    pose proof (first_occ_space_app h' r' Hh') as H2. congruence. }
  assert (h = h') as <-.
  { rewrite <- (str_take_app_length h (" " +:+ r)), Heq, Hlen.
    apply str_take_app_length. }
  split; [done|]. apply (inj (String.app h)) in Heq. by apply (inj (String.app " ")) in Heq.
Qed.

Lemma transmission_line_inj h t h' t' :
  ¬ contains h " " → ¬ contains h' " " →
  transmission_line h t = transmission_line h' t' → h = h' ∧ t = t'.
Proof.
  intros Hh Hh' Heq.
  destruct (split_at_space_unique h h' ("-> " +:+ t +:+ endl) ("-> " +:+ t' +:+ endl))
    as [-> Hr]; [done..|].
  split; [done|]. apply (inj (String.app "-> ")) in Hr. by apply str_app_inv_tail in Hr.
Qed.

Lemma infection_line_inj h t h' t' :
  ¬ contains h " " → ¬ contains h' " " →
  infection_line h t = infection_line h' t' → h = h' ∧ t = t'.
Proof.
  intros Hh Hh' Heq.
  destruct (split_at_space_unique h h' ("infected " +:+ t +:+ endl)
              ("infected " +:+ t' +:+ endl)) as [-> Hr]; [done..|].
  split; [done|]. apply (inj (String.app "infected ")) in Hr.
  by apply str_app_inv_tail in Hr.
Qed.







End ledger_facts.

Lemma neighbors_of_is_Some (m : gmap string (gset string)) host system :
  system ∈ neighbors_of m host → is_Some (m !! host).
Proof. unfold neighbors_of. destruct (m !! host); [done|set_solver]. Qed.

Lemma transmission_line_body h t : transmission_line h t = (h +:+ " -> " +:+ t) +:+ endl.
Proof. unfold transmission_line. by rewrite !str_app_assoc. Qed.

Lemma infection_line_body h t : infection_line h t = (h +:+ " infected " +:+ t) +:+ endl.
Proof. unfold infection_line. by rewrite !str_app_assoc. Qed.

(** A ledger entry ends with a newline, which nothing the payload inserts
    into a contact's sink does: also when such a sink is a ledger file, no
    payload write is a ledger entry. *)
Lemma ledger_write_not_payload (path body : string) (evs : list event) :
  path ≠ "stolen_data.txt" → Forall payload_write evs →
  EvWrite path (body +:+ endl) ∉ evs.
Proof.
  intros Hpath Hall He. rewrite Forall_forall in Hall. specialize (Hall _ He).
  destruct Hall as [?|[Heq|[email Heq]]]; [done| |].
  - apply app_eq_ends_with in Heq. vm_compute in Heq. discriminate.
  - apply app_eq_app_ends_with in Heq as [Hsuf|Hsuf]; vm_compute in Hsuf; discriminate.
Qed.



(** A contact that holds a NUL after the name of a ledger: both of its sinks
    are the ledger file, so the run first leaves the replicated message in
    the ledger and then appends the entry of the edge to it. *)
Example nul_contact_sink_is_the_ledger :
  ∃ st', main (initial_state demo_nul_contact ∅) = Ok (0, st') ∧
    contacts st' = [nul_contact] ∧
    spam_file nul_contact = "transmission_log.txt" ∧
    replicated_file nul_contact = "transmission_log.txt" ∧
    files st' !! "transmission_log.txt"
      = Some (nul_contact +:+ " replicated_prompt" +:+ "A -> B" +:+ endl) ∧
    files st' !! "infection_log.txt" = Some ("A infected B" +:+ endl) ∧
    files st' !! "stolen_data.txt" = Some "" ∧
    occurrences (EvWrite "transmission_log.txt" ("A -> B" +:+ endl)) (trace st') = 1%nat.
Proof.
  destruct (Run_phases (initial_state demo_nul_contact ∅))
    as (? & ? & st' & _ & _ & _ & _ & Hmain).
  exists st'. split; [done|]. vm_compute in Hmain. injection Hmain as <-.
  repeat split; vm_compute; reflexivity.
Qed.

(** * Further properties of the code *)

(** ** The line split *)

Section split_more.
Implicit Types line : string.

Lemma fields_with_space line :
  representable line → contains line " " →
  line = (fields line).1 +:+ " " +:+ (fields line).2.
Proof.
  intros Hrep Hc. apply first_occ_is_Some in Hc as [k Hocc].
  destruct (first_occ_Some _ _ _ Hocc) as [Hk [post Hline]].
  pose proof (first_occ_space_bound _ _ Hocc) as Hbound.
  assert ((fields line).1 = take k line) as Hhost.
  { unfold fields. cbn [fst]. change (drop (Z.to_nat 0) line) with line.
    rewrite find_space, Hocc. simpl from_option. f_equal. unfold size. lia. }
  assert (¬ contains (take k line) " ") as Hns.
  { rewrite <- Hhost. apply fields_host_no_space. }
  pose proof (fields_space (take k line) post) as Hf.
  rewrite <- Hline in Hf. rewrite Hf by done. done.
Qed.

End split_more.

(** X1: on every line a [std::string] can hold, the two [substr] calls of
    [IdentifyConnectedSystems] return without [std::out_of_range]; the host
    they cut out has no space; a line with a space is the host, one space and
    the neighbor, so nothing of it is lost; a line without one is both. *)
Theorem split_line_total_and_lossless (line : string) (st : state) :
  representable line →
  ∃ host neighbor,
    split_line line st = Ok ((host, neighbor), st) ∧
    ¬ contains host " " ∧
    (contains line " " → line = host +:+ " " +:+ neighbor) ∧
    (¬ contains line " " → host = line ∧ neighbor = line).
Proof.
  intros Hrep. exists (fields line).1, (fields line).2.
  split; [|split; [|split]].
  - rewrite split_line_fields. by destruct (fields line).
  - apply fields_host_no_space.
  - by apply fields_with_space.
  - intros Hns. by rewrite fields_no_space.
Qed.

Lemma split_line_total_and_lossless_witness :
  ∃ host neighbor,
    split_line "A B C" (initial_state ∅ ∅) = Ok ((host, neighbor), initial_state ∅ ∅) ∧
    ¬ contains host " " ∧
    (contains "A B C" " " → "A B C" = host +:+ " " +:+ neighbor) ∧
    (¬ contains "A B C" " " → host = "A B C" ∧ neighbor = "A B C").
Proof.
  apply (split_line_total_and_lossless "A B C" (initial_state ∅ ∅)). reflexivity.
Defined.

(** ** The topology as a set of lines *)

Lemma build_from_same_lines (ls1 ls2 : list string) :
  (∀ line, line ∈ ls1 ↔ line ∈ ls2) → build_from ∅ ls1 = build_from ∅ ls2.
Proof.
  intros Hsame. apply map_eq. intros host.
  assert (∀ ls ls', (∀ line, line ∈ ls → line ∈ ls') →
            build_from ∅ ls' !! host = None → build_from ∅ ls !! host = None) as Hnone.
  { intros ls ls' Hsub [_ Hl]%build_from_lookup_None.
    apply build_from_lookup_None. split; [apply lookup_empty|]. auto. }
  destruct (build_from ∅ ls1 !! host) as [s1|] eqn:H1,
           (build_from ∅ ls2 !! host) as [s2|] eqn:H2; [|exfalso..|done].
  - f_equal. apply set_eq. intros n.
    pose proof (elem_of_build_from ∅ ls1 host n) as E1.
    pose proof (elem_of_build_from ∅ ls2 host n) as E2.
    unfold neighbors_of in E1, E2. rewrite H1 in E1. rewrite H2 in E2.
    rewrite lookup_empty in E1, E2. simpl in E1, E2. rewrite E1, E2.
    split; intros [?|(line & ? & ?)]; try set_solver; right; exists line;
      (split; [by apply Hsame|done]).
  - rewrite (Hnone ls1 ls2) in H1; [done| |done]. intros line. apply Hsame.
  - rewrite (Hnone ls2 ls1) in H2; [done| |done]. intros line. apply Hsame.
Qed.

(** X2: the map [IdentifyConnectedSystems] builds from empty depends only on
    which lines the source holds, not on their order nor on how often a line
    is repeated. *)
Theorem topology_ignores_order_and_repetition (st1 st2 : state) :
  connected_systems st1 = ∅ → connected_systems st2 = ∅ →
  (∀ line, line ∈ getlines (files st1 !! "connected_systems.txt") ↔
           line ∈ getlines (files st2 !! "connected_systems.txt")) →
  ∃ st1' st2',
    IdentifyConnectedSystems st1 = Ok (tt, st1') ∧
    IdentifyConnectedSystems st2 = Ok (tt, st2') ∧
    connected_systems st1' = connected_systems st2'.
Proof.
  intros He1 He2 Hsame.
  destruct (IdentifyConnectedSystems_spec st1) as ([] & st1' & Hrun1 & _ & _ & _ & _ & Hm1 & _).
  destruct (IdentifyConnectedSystems_spec st2) as ([] & st2' & Hrun2 & _ & _ & _ & _ & Hm2 & _).
  exists st1', st2'. split; [done|]. split; [done|].
  rewrite Hm1, Hm2, He1, He2. by apply build_from_same_lines.
Qed.

Lemma topology_ignores_order_and_repetition_witness :
  ∃ st1' st2',
    IdentifyConnectedSystems (initial_state demo_topology ∅) = Ok (tt, st1') ∧
    IdentifyConnectedSystems (initial_state demo_topology_shuffled ∅) = Ok (tt, st2') ∧
    connected_systems st1' = connected_systems st2'.
Proof.
  apply (topology_ignores_order_and_repetition
           (initial_state demo_topology ∅) (initial_state demo_topology_shuffled ∅)).
  - reflexivity.
  - reflexivity.
  - intros line. vm_compute getlines. set_solver.
Defined.

(** ** The order of the edge walk *)

Section order_facts.

Lemma StronglySorted_strict {A} (R : relation A) (l : list A) :
  StronglySorted R l → NoDup l → StronglySorted (λ x y, R x y ∧ x ≠ y) l.
Proof.
  induction 1 as [|x l Hl IH Hx]; intros Hnd; [constructor|].
  apply NoDup_cons in Hnd as [Hnotin Hnd]. constructor; [auto|].
  rewrite Forall_forall in *. intros y Hy. split; [auto|]. by intros ->.
Qed.

Lemma in_order_sorted (s : gset string) : StronglySorted str_lt (in_order s).
Proof.
  apply StronglySorted_strict; [|apply NoDup_in_order].
  apply StronglySorted_merge_sort; apply _.
Qed.

Lemma StronglySorted_bind {A B} (R1 : relation A) (R : relation B)
    (f : A → list B) (l : list A) :
  StronglySorted R1 l →
  (∀ x, x ∈ l → StronglySorted R (f x)) →
  (∀ x y a b, R1 x y → a ∈ f x → b ∈ f y → R a b) →
  StronglySorted R (l ≫= f).
Proof.
  induction 1 as [|x l Hl IH Hx]; intros Hf Hcross; [constructor|].
  rewrite bind_cons. apply StronglySorted_app_2.
  - intros a b Ha (y & Hb & Hy)%list_elem_of_bind. rewrite Forall_forall in Hx.
    eapply Hcross; [by apply Hx|done..].
  - apply Hf. left.
  - apply IH; [|done]. intros y Hy. apply Hf. by right.
Qed.

Lemma edges_in_order_sorted (m : gmap string (gset string)) :
  StronglySorted edge_lt (edges_in_order m).
Proof.
  unfold edges_in_order. apply (StronglySorted_bind str_lt); [apply in_order_sorted| |].
  - intros host _. apply (StronglySorted_bind str_lt); [apply in_order_sorted| |].
    + intros system _. repeat constructor.
    + intros n n' a b Hlt ->%list_elem_of_singleton ->%list_elem_of_singleton.
      right. by split.
  - intros h h' a b Hlt (n & ->%list_elem_of_singleton & _)%list_elem_of_bind
      (n' & ->%list_elem_of_singleton & _)%list_elem_of_bind.
    by left.
Qed.

End order_facts.

(** X3: the second loop of [Run] meets the edges of the map in strictly
    increasing order, by host and then by neighbor in the byte order of
    [std::string]; its stream operations are those of [SendPrompt] for the
    edges in that order, so the ledgers are written sorted whatever the order
    of the topology source was. *)
Theorem Propagate_walks_edges_in_order (st : state) :
  ∃ st', Propagate st = Ok (tt, st') ∧
    trace st' = trace st ++
      (edges_in_order (connected_systems st) ≫= λ e, prompt_events (denied st) e.1 e.2) ∧
    StronglySorted edge_lt (edges_in_order (connected_systems st)) ∧
    (∀ host system, (host, system) ∈ edges_in_order (connected_systems st) ↔
                    system ∈ neighbors_of (connected_systems st) host).
Proof.
  destruct (Propagate_spec st) as ([] & st' & Hrun & _ & Ht & _).
  exists st'. split; [done|]. split; [done|]. split; [apply edges_in_order_sorted|].
  intros host system. apply elem_of_edges_in_order.
Qed.

(** ** The capture step *)

Section capture_facts.

Lemma no_newline_String c l :
  c ≠ newline → ¬ contains l endl → ¬ contains (String c l) endl.
Proof.
  intros Hc Hl (pre & post & Heq). destruct pre as [|c' pre].
  - rewrite str_app_nil_l in Heq. change (endl +:+ post) with (String newline post) in Heq.
    by simplify_eq.
  - rewrite str_app_cons in Heq. simplify_eq. apply Hl. by exists pre, post.
Qed.

(** [std::getline] never delivers a newline. *)
Lemma read_lines_no_newline (buf : string) :
  Forall (λ l, ¬ contains l endl) (read_lines buf).
Proof.
  assert (¬ contains "" endl) as Hempty.
  { intros (pre & post & Heq). destruct pre; [|by rewrite str_app_cons in Heq].
    rewrite str_app_nil_l in Heq. discriminate. }
  induction buf as [|c rest IH]; simpl; [constructor|].
  case_decide as Hc; [by constructor|].
  destruct (read_lines rest) as [|l ls].
  - constructor; [|done]. by apply no_newline_String.
  - apply Forall_cons in IH as [Hl Hls]. constructor; [|done]. by apply no_newline_String.
Qed.

Lemma getlines_captured (source : option string) :
  getlines (Some (captured source)) = getlines source.
Proof.
  unfold captured. simpl. apply read_lines_unlines.
  destruct source; [apply read_lines_no_newline|constructor].
Qed.

End capture_facts.

(** X4: [StealData] never fails and changes nothing but the captured-data
    file: when [stolen_data.txt] cannot be opened the file system is as it
    was, and otherwise that file is replaced by the lines of [data.txt], each
    followed by a newline (by nothing when [data.txt] is missing). *)
Theorem StealData_replaces_sink_by_lines (st : state) :
  ∃ st', StealData st = Ok (tt, st') ∧
    contacts st' = contacts st ∧ connected_systems st' = connected_systems st ∧
    files st' =
      if decide ("stolen_data.txt" ∈ denied st) then files st
      else <["stolen_data.txt" := unlines (getlines (files st !! "data.txt"))]> (files st).
Proof.
  destruct (StealData_files st) as (st' & Hrun & (? & ? & _) & Hf). by exists st'.
Qed.

(** X5: when the sink opens, reading the captured file line by line gives
    the lines of the source again, also when the source lacks its final
    newline; and the source is left as it was. *)
Theorem StealData_preserves_lines (st : state) :
  "stolen_data.txt" ∉ denied st →
  ∃ st', StealData st = Ok (tt, st') ∧
    getlines (files st' !! "stolen_data.txt") = getlines (files st !! "data.txt") ∧
    files st' !! "data.txt" = files st !! "data.txt".
Proof.
  intros Hden. destruct (StealData_files st) as (st' & Hrun & _ & Hf).
  exists st'. split; [done|]. rewrite Hf, decide_False by done.
  rewrite lookup_insert_eq, lookup_insert_ne by done. split; [|done].
  apply getlines_captured.
Qed.

Lemma StealData_preserves_lines_witness :
  ∃ st', StealData (initial_state demo_capture ∅) = Ok (tt, st') ∧
    getlines (files st' !! "stolen_data.txt") = getlines (demo_capture !! "data.txt") ∧
    files st' !! "data.txt" = demo_capture !! "data.txt".
Proof.
  apply (StealData_preserves_lines (initial_state demo_capture ∅)).
  simpl. apply not_elem_of_empty.
Defined.

(** ** The scan *)

Section scan_more.

Lemma filter_no_trigger (cs : list string) :
  (∀ c, c ∈ cs → IsAdversarialPrompt c = false) → filter is_trigger cs = [].
Proof.
  induction cs as [|c cs IH]; intros Hno; [done|].
  rewrite filter_cons_False.
  - apply IH. intros c' ?. apply Hno. by right.
  - unfold is_trigger. rewrite Hno by left. done.
Qed.

Lemma Scan_noop st :
  (∀ c, c ∈ contacts st → IsAdversarialPrompt c = false) → Scan st = Ok (tt, st).
Proof. intros Hno. by rewrite Scan_per_trigger, filter_no_trigger. Qed.

End scan_more.

(** X6: when no contact contains the marker, the first loop of [Run] does
    nothing at all: no stream is opened, no file is created or changed, and
    the state it returns is the state it was given. *)
Theorem Scan_without_trigger_is_noop (st : state) :
  (∀ c, c ∈ contacts st → IsAdversarialPrompt c = false) →
  Scan st = Ok (tt, st).
Proof.
  apply Scan_noop.
Qed.

Lemma Scan_without_trigger_is_noop_witness :
  Scan (State ["alice"; "bob"] ∅ ∅ ∅ ∅ []) = Ok (tt, State ["alice"; "bob"] ∅ ∅ ∅ ∅ []).
Proof.
  apply (Scan_without_trigger_is_noop (State ["alice"; "bob"] ∅ ∅ ∅ ∅ [])).
  intros c Hc. simpl in Hc.
  apply elem_of_cons in Hc as [->|Hc]; [reflexivity|].
  apply list_elem_of_singleton in Hc as ->. reflexivity.
Defined.




(** ** Replication and the marker *)

Section marker_facts.
Implicit Types a b c d pat : string.

Lemma str_app_eq_app a b c d :
  a +:+ b = c +:+ d →
  (∃ e, c = a +:+ e ∧ b = e +:+ d) ∨ (∃ e, a = c +:+ e ∧ d = e +:+ b).
Proof.
  revert c. induction a as [|x a IH]; intros c Heq.
  - left. exists c. by rewrite !str_app_nil_l in *.
  - destruct c as [|y c].
    + right. exists (String x a). by rewrite !str_app_nil_l in *.
    + rewrite !str_app_cons in Heq. injection Heq as -> Heq.
      destruct (IH c Heq) as [(e & -> & ->)|(e & -> & ->)]; [left|right]; by exists e.
Qed.

Lemma contains_empty a : contains a "".
Proof. exists "", a. done. Qed.

(** An occurrence of a pattern cannot straddle a character the pattern
    does not have. *)
Lemma contains_app_sep pat a (ch : ascii) b :
  ¬ contains pat (String ch "") →
  contains (a +:+ String ch b) pat ↔ contains a pat ∨ contains b pat.
Proof.
  intros Hch. split.
  - intros (pre & post & Heq).
    destruct (str_app_eq_app _ _ _ _ Heq) as [(e & -> & He)|(e & -> & He)].
    + destruct e as [|x e].
      * rewrite str_app_nil_l in He. destruct pat as [|y pat]; [left; apply contains_empty|].
        rewrite str_app_cons in He. injection He as -> _.
        destruct Hch. by exists "", pat.
      * rewrite str_app_cons in He. injection He as _ ->. right. by exists e, post.
    + destruct (str_app_eq_app _ _ _ _ He) as [(e2 & -> & He2)|(e2 & -> & He2)].
      * left. by exists pre, e2.
      * destruct e2 as [|x e2].
        -- left. exists pre, "". by rewrite !str_app_nil_r.
        -- rewrite str_app_cons in He2. injection He2 as -> _.
           destruct Hch. by exists e, e2.
  - intros [(pre & post & ->)|(pre & post & ->)].
    + exists pre, (post +:+ String ch b). by rewrite <- !str_app_assoc.
    + exists (a +:+ String ch pre), post.
      rewrite <- !str_app_assoc. by rewrite str_app_cons.
Qed.

Lemma IsAdversarialPrompt_true_iff email :
  representable email → IsAdversarialPrompt email = true ↔ contains email marker.
Proof.
  intros Hrep. unfold IsAdversarialPrompt.
  pose proof (find_npos_iff email marker Hrep) as Hfind.
  destruct (Z.eqb_spec (find email marker) npos) as [Heq|Hne]; simpl.
  - apply Hfind in Heq. split; [done|]. intros ?. by destruct Heq.
  - split; [intros _|done]. apply first_occ_is_Some.
    destruct (first_occ marker email) eqn:Hocc; [done|].
    by apply first_occ_None, Hfind in Hocc.
Qed.

End marker_facts.

(** X8: the message [ReplicatePrompt] writes is classified as the message it
    was made from: appending [ replicated_prompt] neither adds nor removes the
    marker, so a replicated trigger is a trigger again and nothing else
    becomes one. *)
Theorem replicated_email_keeps_classification (email : string) :
  representable (email +:+ " replicated_prompt") →
  IsAdversarialPrompt (email +:+ " replicated_prompt") = IsAdversarialPrompt email.
Proof.
  intros Hrep.
  assert (representable email) as Hrep'.
  { unfold representable in *. rewrite size_app in Hrep.
    pose proof (size_nonneg " replicated_prompt"). lia. }
  apply Bool.eq_iff_eq_true. rewrite !IsAdversarialPrompt_true_iff by done.
  change (email +:+ " replicated_prompt") with (email +:+ String " " "replicated_prompt").
  rewrite contains_app_sep by (by apply first_occ_None).
  split; [|by left]. intros [?|Hc]; [done|].
  by apply first_occ_None in Hc.
Qed.

Lemma replicated_email_keeps_classification_witness :
  IsAdversarialPrompt ("x_adversarial_keyword" +:+ " replicated_prompt")
    = IsAdversarialPrompt "x_adversarial_keyword".
Proof. apply (replicated_email_keeps_classification "x_adversarial_keyword"). reflexivity. Defined.

(** ** What a run leaves behind *)

Section run_more.

Lemma run_summary (fs : gmap string string) (locked : gset string) :
  ∃ st', main (initial_state fs locked) = Ok (0, st') ∧
    contacts st' = getlines (fs !! "contacts.txt") ∧
    connected_systems st' = build_from ∅ (getlines (fs !! "connected_systems.txt")) ∧
    denied st' = locked ∧
    (∀ path, ¬ is_ledger path → ¬ is_payload_sink (contacts st') path →
             files st' !! path = fs !! path) ∧
    ("transmission_log.txt" ∉ locked →
     ¬ is_contact_sink (contacts st') "transmission_log.txt" →
     files st' !! "transmission_log.txt" =
       appended (fs !! "transmission_log.txt")
         (ledger_lines transmission_line (connected_systems st'))) ∧
    ("infection_log.txt" ∉ locked →
     ¬ is_contact_sink (contacts st') "infection_log.txt" →
     files st' !! "infection_log.txt" =
       appended (fs !! "infection_log.txt")
         (ledger_lines infection_line (connected_systems st'))).
Proof.
  destruct (Run_phases (initial_state fs locked))
    as (st1 & st2 & st3 & Hrun1 & Hrun2 & Hrun3 & _ & Hmain).
  exists st3. split; [done|].
  pose proof (steps_elim _ _ _ _ _ Initialize_spec Hrun1)
    as (Hcs1 & _ & Hd1 & Hf1 & Hm1 & _).
  pose proof (steps_elim _ _ _ _ _ Scan_spec Hrun2)
    as (((Hcs2 & Hm2 & _ & Hd2) & Hf2 & _) & _).
  pose proof (steps_elim _ _ _ _ _ Propagate_spec Hrun3)
    as (((Hcs3 & Hm3 & _ & Hd3) & Hf3 & _) & _ & Hgt & Hgi).
  simpl in Hcs1, Hd1, Hf1, Hm1.
  rewrite Hd2, Hd1 in Hgt, Hgi. rewrite Hm3, Hcs3, Hcs2.
  split; [congruence|]. split; [congruence|]. split; [congruence|].
  split; [|split].
  - intros path ? ?. by rewrite Hf3, Hf2, Hf1.
  - intros Hopen Hfree. rewrite Hgt by done. f_equal.
    rewrite Hf2, Hf1; [done|]. by intros [?|?].
  - intros Hopen Hfree. rewrite Hgi by done. f_equal.
    rewrite Hf2, Hf1; [done|]. by intros [?|?].
Qed.

Lemma source_not_sink cs path :
  (∀ k, k ∈ cs → no_nul k) →
  path = "contacts.txt" ∨ path = "connected_systems.txt" ∨ path = "data.txt" →
  ¬ is_ledger path ∧ ¬ is_payload_sink cs path.
Proof.
  intros Hcs Hsrc. split.
  - intros [-> | ->]; destruct Hsrc as [|[|]]; discriminate.
  - intros Hp. apply payload_sink_not_source in Hp as (? & ? & ?); [|done].
    destruct Hsrc as [|[|]]; done.
Qed.

Lemma ledger_not_contact_sink cs path :
  (∀ k, k ∈ cs → no_nul k) → is_ledger path → ¬ is_contact_sink cs path.
Proof.
  intros Hcs Hled Hp. by eapply email_name_not_ledger; [eapply contact_sink_no_nul|].
Qed.

End run_more.


(** X10: the ledgers are not idempotent: when no line of [contacts.txt]
    holds a NUL, a second run over the files the first one left reads the
    same contacts and builds the same topology, and each ledger that can be
    opened ends as its content before the first run followed by the lines of
    the edges twice. *)
Theorem second_run_appends_the_lines_again (fs : gmap string string) (locked : gset string) :
  (∀ k, k ∈ getlines (fs !! "contacts.txt") → no_nul k) →
  ∃ st1 st2,
    main (initial_state fs locked) = Ok (0, st1) ∧
    main (initial_state (files st1) locked) = Ok (0, st2) ∧
    contacts st2 = contacts st1 ∧
    connected_systems st2 = connected_systems st1 ∧
    ("transmission_log.txt" ∉ locked →
     files st2 !! "transmission_log.txt" =
       appended (fs !! "transmission_log.txt")
         (ledger_lines transmission_line (connected_systems st1) ++
          ledger_lines transmission_line (connected_systems st1))) ∧
    ("infection_log.txt" ∉ locked →
     files st2 !! "infection_log.txt" =
       appended (fs !! "infection_log.txt")
         (ledger_lines infection_line (connected_systems st1) ++
          ledger_lines infection_line (connected_systems st1))).
Proof.
  intros Hnul.
  destruct (run_summary fs locked) as (st1 & Hmain1 & Hcs1 & Hm1 & _ & Hframe1 & Hgt1 & Hgi1).
  destruct (run_summary (files st1) locked)
    as (st2 & Hmain2 & Hcs2 & Hm2 & _ & _ & Hgt2 & Hgi2).
  exists st1, st2. split; [done|]. split; [done|].
  rewrite <- Hcs1 in Hnul.
  assert (contacts st2 = contacts st1) as Hcs.
  { rewrite Hcs2, Hcs1, Hframe1; [done|apply (source_not_sink _ _ Hnul); auto..]. }
  assert (connected_systems st2 = connected_systems st1) as Hm.
  { rewrite Hm2, Hm1, Hframe1; [done|apply (source_not_sink _ _ Hnul); auto..]. }
  rewrite Hm, Hcs in Hgt2, Hgi2.
  split; [done|]. split; [done|]. split.
  - intros Hopen.
    assert (¬ is_contact_sink (contacts st1) "transmission_log.txt") as Hfree
      by (apply ledger_not_contact_sink; [done|by left]).
    rewrite appended_app, <- Hgt1 by done. by apply Hgt2.
  - intros Hopen.
    assert (¬ is_contact_sink (contacts st1) "infection_log.txt") as Hfree
      by (apply ledger_not_contact_sink; [done|by right]).
    rewrite appended_app, <- Hgi1 by done. by apply Hgi2.
Qed.

Lemma second_run_appends_the_lines_again_witness :
  ∃ st1 st2,
    main (initial_state demo_contact_and_edge ∅) = Ok (0, st1) ∧
    main (initial_state (files st1) ∅) = Ok (0, st2) ∧
    contacts st2 = contacts st1 ∧
    connected_systems st2 = connected_systems st1 ∧
    ("transmission_log.txt" ∉ (∅ : gset string) →
     files st2 !! "transmission_log.txt" =
       appended (demo_contact_and_edge !! "transmission_log.txt")
         (ledger_lines transmission_line (connected_systems st1) ++
          ledger_lines transmission_line (connected_systems st1))) ∧
    ("infection_log.txt" ∉ (∅ : gset string) →
     files st2 !! "infection_log.txt" =
       appended (demo_contact_and_edge !! "infection_log.txt")
         (ledger_lines infection_line (connected_systems st1) ++
          ledger_lines infection_line (connected_systems st1))).
Proof.
  apply (second_run_appends_the_lines_again demo_contact_and_edge ∅).
  intros k Hk. vm_compute in Hk.
  repeat (apply elem_of_cons in Hk as [->|Hk]); [..|by apply elem_of_nil in Hk];
    by apply first_occ_None.
Defined.

(** X11: in a run from the empty globals no two edges of the topology give
    the same ledger line: a host never holds a space, so the host and the
    neighbor can be read back from a transmission or an infection line. *)
Theorem ledger_lines_identify_edges (fs : gmap string string) (locked : gset string) :
  ∃ st', main (initial_state fs locked) = Ok (0, st') ∧
    ∀ host target host' target',
      target ∈ neighbors_of (connected_systems st') host →
      target' ∈ neighbors_of (connected_systems st') host' →
      (host +:+ " -> " +:+ target +:+ endl = host' +:+ " -> " +:+ target' +:+ endl →
       host = host' ∧ target = target') ∧
      (host +:+ " infected " +:+ target +:+ endl
         = host' +:+ " infected " +:+ target' +:+ endl →
       host = host' ∧ target = target').
Proof.
  destruct (run_summary fs locked) as (st' & Hmain & _ & Hm & _).
  exists st'. split; [done|]. intros host target host' target' Hin Hin'.
  assert (keys_no_space (connected_systems st')) as Hkeys.
  { rewrite Hm. apply build_from_keys_no_space. intros h [? Hh].
    by rewrite lookup_empty in Hh. }
  assert (¬ contains host " ") by (eapply Hkeys, neighbors_of_is_Some; done).
  assert (¬ contains host' " ") by (eapply Hkeys, neighbors_of_is_Some; done).
  split; intros Heq.
  - by apply transmission_line_inj.
  - by apply infection_line_inj.
Qed.

(** X12: the contact list of a run is the contacts source read back line by
    line: for a source written as the lines [ls], each followed by a newline,
    the contacts are [ls] in that order, repetitions and empty lines kept. *)
Theorem contacts_are_the_lines_of_the_source
    (fs : gmap string string) (locked : gset string) (ls : list string) :
  Forall (λ l, ¬ contains l endl) ls →
  fs !! "contacts.txt" = Some (unlines ls) →
  ∃ st', main (initial_state fs locked) = Ok (0, st') ∧ contacts st' = ls.
Proof.
  intros Hls Hfile.
  destruct (run_summary fs locked) as (st' & Hmain & Hcs & _).
  exists st'. split; [done|]. rewrite Hcs, Hfile. simpl. by apply read_lines_unlines.
Qed.

Lemma contacts_are_the_lines_of_the_source_witness :
  ∃ st', main (initial_state demo_quiet ∅) = Ok (0, st') ∧
         contacts st' = ["alice"; "bob"; ""; "bob"].
Proof.
  apply (contacts_are_the_lines_of_the_source demo_quiet ∅ ["alice"; "bob"; ""; "bob"]).
  - repeat constructor; by apply first_occ_None.
  - reflexivity.
Defined.

(** ** The two broadcasts *)


(** X14: one run of the payload performs, in this order: the two stream
    constructions of [StealData] and its line copies; then for each contact in
    list order the construction of its spam stream and, if it opened, the
    write of the placeholder; then for each contact in list order the same for
    its replication stream and the replicated message.  No replication write
    precedes a spam write.  A stream is on the file its name is cut to at the
    first NUL. *)
Theorem ProcessAdversarialPrompt_operations_in_order (email : string) (st : state) :
  ∃ st', ProcessAdversarialPrompt email st = Ok (tt, st') ∧
    trace st' = trace st ++
      steal_events (files st) (denied st) ++
      (contacts st ≫= λ k,
         write_events (denied st) (c_str (k +:+ "_spam_email.txt"))
           "This is a spam email.") ++
      (contacts st ≫= λ k,
         write_events (denied st) (c_str (k +:+ "_replicated_email.txt"))
           (email +:+ " replicated_prompt")).
Proof.
  destruct (ProcessAdversarialPrompt_trace email st) as (st' & Hrun & Ht).
  exists st'. split; [done|]. exact Ht.
Qed.

(** ** The order of the phases *)

Lemma propagate_events_on_ledgers locked (m : gmap string (gset string)) :
  Forall (λ e, is_ledger (event_path e)) (propagate_events locked m).
Proof.
  unfold propagate_events. apply Forall_bind, Forall_forall. intros e _.
  unfold prompt_events.
  repeat apply Forall_cons_2; try apply Forall_nil_2; simpl; [by left|by left|by right|by right].
Qed.

(** X15: the stream operations of a run are the two input opens of
    [Initialize], then those of the first loop of [Run], then those of the
    second loop.  Those of the first loop concern [stolen_data.txt] or the
    file of a loaded contact's sink and none of them is the write of a ledger
    entry; when no loaded contact holds a NUL, none of them opens a ledger
    for writing or writes to one.  Those of the second loop are all on a
    ledger: no ledger entry is made before the last payload operation. *)
Theorem payload_operations_precede_ledger_operations
    (fs : gmap string string) (locked : gset string) :
  ∃ st1 st2 st' scan_ops ledger_ops,
    Initialize (initial_state fs locked) = Ok (tt, st1) ∧
    Scan st1 = Ok (tt, st2) ∧ Propagate st2 = Ok (tt, st') ∧
    main (initial_state fs locked) = Ok (0, st') ∧
    trace st1 =
      [ EvOpen "contacts.txt" ModeIn (bool_decide (is_Some (fs !! "contacts.txt")));
        EvOpen "connected_systems.txt" ModeIn
          (bool_decide (is_Some (fs !! "connected_systems.txt"))) ] ∧
    trace st2 = trace st1 ++ scan_ops ∧
    trace st' = trace st2 ++ ledger_ops ∧
    Forall (event_within (is_payload_sink (contacts st'))) scan_ops ∧
    (∀ host target,
       ¬ EvWrite "transmission_log.txt" (host +:+ " -> " +:+ target +:+ endl) ∈ scan_ops ∧
       ¬ EvWrite "infection_log.txt" (host +:+ " infected " +:+ target +:+ endl) ∈ scan_ops) ∧
    ((∀ k, k ∈ contacts st' → no_nul k) →
     Forall (event_within (λ path, ¬ is_ledger path)) scan_ops) ∧
    Forall (λ e, is_ledger (event_path e)) ledger_ops ∧
    ledger_ops = propagate_events locked (connected_systems st').
Proof.
  destruct (run_keeps_topology (initial_state fs locked))
    as (st1 & st2 & st3 & Hrun1 & Hrun2 & Hrun3 & Hmain & Hm2 & Hm3).
  pose proof (steps_elim _ _ _ _ _ Initialize_spec Hrun1) as (_ & _ & Hd1 & _ & _ & Ht1).
  pose proof (steps_elim _ _ _ _ _ Scan_spec Hrun2)
    as (((Hcs2 & _ & _ & Hd2) & _) & (evs2 & Ht2 & Hwrites & Hevs2) & _).
  pose proof (steps_elim _ _ _ _ _ Propagate_spec Hrun3) as (((Hcs3 & _) & _) & Ht3 & _).
  simpl in Hd1, Ht1. rewrite Hd2, Hd1, Hm2 in Ht3.
  exists st1, st2, st3, evs2, (propagate_events locked (connected_systems st1)).
  rewrite Hcs3, Hcs2.
  repeat (split; [done|]).
  split; [|split; [|split; [apply propagate_events_on_ledgers|by rewrite Hm3]]].
  - intros host target.
    fold (transmission_line host target) (infection_line host target).
    rewrite transmission_line_body, infection_line_body.
    split; by apply ledger_write_not_payload.
  - intros Hnul. eapply Forall_impl; [done|].
    intros [path [] ok|path data]; simpl; try done; by apply payload_sink_not_ledger.
Qed.

(** ** The build only adds *)

(** X16: [IdentifyConnectedSystems] never removes anything from the map it
    is given: every host stays a key, every neighbor stays in its set, and a
    neighbor in a set afterwards was there before or is the second field of a
    line of the source whose first field is that host. *)
Theorem IdentifyConnectedSystems_only_adds (st : state) :
  ∃ st', IdentifyConnectedSystems st = Ok (tt, st') ∧
    (∀ host, is_Some (connected_systems st !! host) →
             is_Some (connected_systems st' !! host)) ∧
    (∀ host n, n ∈ neighbors_of (connected_systems st) host →
               n ∈ neighbors_of (connected_systems st') host) ∧
    (∀ host n, n ∈ neighbors_of (connected_systems st') host →
       n ∈ neighbors_of (connected_systems st) host ∨
       ∃ line, line ∈ getlines (files st !! "connected_systems.txt") ∧
               split_line line st = Ok ((host, n), st)).
Proof.
  destruct (IdentifyConnectedSystems_spec st) as ([] & st' & Hrun & _ & _ & _ & _ & Hm & _).
  exists st'. split; [done|]. rewrite Hm. split; [|split].
  - intros host Hsome.
    destruct (build_from _ _ !! host) eqn:Hl; [done|].
    apply build_from_lookup_None in Hl as [Hnone _]. rewrite Hnone in Hsome.
    by destruct Hsome.
  - intros host n Hn. apply elem_of_build_from. by left.
  - intros host n [?|(line & ? & Hf)]%elem_of_build_from; [by left|right].
    exists line. split; [done|]. by rewrite split_line_fields, Hf.
Qed.

(** ** The copy, byte for byte *)

Section copy_bytes.

Lemma read_lines_nil buf : read_lines buf = [] → buf = "".
Proof.
  destruct buf as [|c rest]; [done|]. simpl. case_decide; [done|].
  by destruct (read_lines rest).
Qed.

Lemma unlines_cons_String c l ls :
  unlines (String c l :: ls) = String c (unlines (l :: ls)).
Proof. done. Qed.

Lemma read_lines_String c rest :
  c ≠ newline → rest ≠ "" →
  unlines (read_lines (String c rest)) = String c (unlines (read_lines rest)).
Proof.
  intros Hc Hrest. simpl. case_decide; [done|].
  destruct (read_lines rest) as [|l ls] eqn:Hl; [by apply read_lines_nil in Hl|].
  apply unlines_cons_String.
Qed.

Lemma read_lines_newline rest :
  unlines (read_lines (String newline rest)) = String newline (unlines (read_lines rest)).
Proof. simpl. repeat case_decide; done. Qed.

Lemma app_endl_nonempty pre : pre +:+ endl ≠ "".
Proof. by destruct pre. Qed.

(** A source that ends with a newline is reproduced exactly. *)
Lemma captured_terminated pre : captured (Some (pre +:+ endl)) = pre +:+ endl.
Proof.
  unfold captured, getlines. induction pre as [|c pre IH].
  - rewrite str_app_nil_l. by vm_compute.
  - rewrite str_app_cons. destruct (decide (c = newline)) as [->|Hc].
    + by rewrite read_lines_newline, IH.
    + rewrite read_lines_String, IH; [done..|apply app_endl_nonempty].
Qed.

(** A source that ends with another character gets the newline it lacks. *)
Lemma captured_unterminated pre c :
  c ≠ newline →
  captured (Some (pre +:+ String c "")) = pre +:+ String c "" +:+ endl.
Proof.
  intros Hc. unfold captured, getlines. induction pre as [|c' pre IH].
  - rewrite !str_app_nil_l. simpl. by case_decide.
  - rewrite !str_app_cons. destruct (decide (c' = newline)) as [->|Hc'].
    + by rewrite read_lines_newline, IH.
    + rewrite read_lines_String, IH; [done..|by destruct pre].
Qed.

End copy_bytes.

(** X17: when the sink opens, [StealData] copies [data.txt] byte for byte if
    it is empty or ends with a newline, and otherwise copies it and adds the
    one newline that is missing at its end. *)
Theorem StealData_copy_is_verbatim_up_to_final_newline (st : state) :
  "stolen_data.txt" ∉ denied st →
  ∃ st', StealData st = Ok (tt, st') ∧
    (files st !! "data.txt" = Some "" → files st' !! "stolen_data.txt" = Some "") ∧
    (∀ pre, files st !! "data.txt" = Some (pre +:+ endl) →
            files st' !! "stolen_data.txt" = Some (pre +:+ endl)) ∧
    (∀ pre c, c ≠ newline → files st !! "data.txt" = Some (pre +:+ String c "") →
              files st' !! "stolen_data.txt" = Some (pre +:+ String c "" +:+ endl)).
Proof.
  intros Hden. destruct (StealData_files st) as (st' & Hrun & _ & Hf).
  exists st'. split; [done|]. rewrite Hf, decide_False by done.
  rewrite lookup_insert_eq. split; [|split].
  - by intros ->.
  - intros pre ->. by rewrite captured_terminated.
  - intros pre c Hc ->. by rewrite captured_unterminated.
Qed.

Lemma StealData_copy_is_verbatim_up_to_final_newline_witness :
  ∃ st', StealData (initial_state demo_capture_terminated ∅) = Ok (tt, st') ∧
    (demo_capture_terminated !! "data.txt" = Some "" →
     files st' !! "stolen_data.txt" = Some "") ∧
    (∀ pre, demo_capture_terminated !! "data.txt" = Some (pre +:+ endl) →
            files st' !! "stolen_data.txt" = Some (pre +:+ endl)) ∧
    (∀ pre c, c ≠ newline →
              demo_capture_terminated !! "data.txt" = Some (pre +:+ String c "") →
              files st' !! "stolen_data.txt" = Some (pre +:+ String c "" +:+ endl)).
Proof.
  apply (StealData_copy_is_verbatim_up_to_final_newline
           (initial_state demo_capture_terminated ∅)).
  simpl. apply not_elem_of_empty.
Defined.
